(** * MSPDebug command parser (parse.c): a shallow embedding and its properties

    The development follows the layout of [parse.c]:
    - [Libc]: the C-library functions the file calls ([isspace], [isdigit],
      [isalnum], [tolower], [strlen], [strcasecmp], [strncpy], [strtol],
      [atoi]) over byte memory, in the "C" locale;
    - [Parse]: the translation unit itself, with its file-scope variables
      gathered in one record that every function threads explicitly;
    - [Spec]: the reference definitions written after the prose specification,
      against which the embedded code is compared;
    - the properties. *)

From Stdlib Require Import ZArith Lia Bool Ascii String.
From stdpp Require Import list.

(* ===================================================================== *)
(** ** Bytes, memory and the C library                                      *)
(* ===================================================================== *)

Module Libc.

(** A [char] is a byte; [code] is its value as an [unsigned char]. *)
Definition code (c : ascii) : Z := Z.of_N (N_of_ascii c).

Definition NUL : ascii := Ascii.zero.

(** [c == 0] and the truth value of [c] in a C condition. *)
Definition is_nul (c : ascii) : bool := Ascii.eqb c NUL.
Definition truthy (c : ascii) : bool := negb (is_nul c).

(** <ctype.h>, "C" locale. *)
Definition isspace (c : ascii) : bool :=
  let n := code c in ((n =? 32) || ((9 <=? n) && (n <=? 13)))%Z.
Definition isdigit (c : ascii) : bool :=
  let n := code c in ((48 <=? n) && (n <=? 57))%Z.
Definition isupper (c : ascii) : bool :=
  let n := code c in ((65 <=? n) && (n <=? 90))%Z.
Definition islower (c : ascii) : bool :=
  let n := code c in ((97 <=? n) && (n <=? 122))%Z.
Definition isalpha (c : ascii) : bool := isupper c || islower c.
Definition isalnum (c : ascii) : bool := isalpha c || isdigit c.
Definition tolower (c : ascii) : ascii :=
  if isupper c then ascii_of_N (N_of_ascii c + 32) else c.

(** Memory reached through a [char *]: the list of the bytes from the
    pointer on.  Every cell at or beyond the end of the list reads as NUL
    (the terminator of the last string), and a store there is dropped; the
    code under study only ever stores NUL at such a place. *)
Definition peek (buf : list ascii) (i : nat) : ascii := default NUL (buf !! i).
Definition poke (buf : list ascii) (i : nat) (c : ascii) : list ascii := <[i:=c]> buf.

(** The C string held at the start of a memory region: its bytes up to,
    not including, the first NUL. *)
Fixpoint c_str (s : list ascii) : list ascii :=
  match s with
  | [] => []
  | c :: s' => if is_nul c then [] else c :: c_str s'
  end.

Definition strlen (s : list ascii) : nat := length (c_str s).

(** [while (buf[i] && p(buf[i])) i++;] run for the [n] cells that remain
    before the end of the region ([n = length buf - i]): once they are used
    up the cell read is the terminator and the loop has stopped anyway. *)
Fixpoint skip_while (p : ascii -> bool) (n : nat) (buf : list ascii) (i : nat) : nat :=
  match n with
  | O => i
  | S n' =>
      if truthy (peek buf i) && p (peek buf i)
      then skip_while p n' buf (S i)
      else i
  end.

(** [while (buf[i] && p(buf[i])) buf[i++] = 0;] *)
Fixpoint zero_while (p : ascii -> bool) (n : nat) (buf : list ascii) (i : nat)
  : list ascii * nat :=
  match n with
  | O => (buf, i)
  | S n' =>
      if truthy (peek buf i) && p (peek buf i)
      then zero_while p n' (poke buf i NUL) (S i)
      else (buf, i)
  end.

(** [strcasecmp]: the difference of the first pair of bytes that differ
    after [tolower], 0 when both strings end together. *)
Fixpoint strcasecmp (a b : list ascii) : Z :=
  let d := (code (tolower (hd NUL a)) - code (tolower (hd NUL b)))%Z in
  if negb (d =? 0)%Z then d
  else match a with
       | [] => 0%Z
       | c :: a' => if is_nul c then 0%Z else strcasecmp a' (tl b)
       end.

(** [strncpy(dst, src, n)]: exactly [n] bytes are written, the bytes of the
    string [src] followed by NUL padding. *)
Definition strncpy (dst src : list ascii) (n : nat) : list ascii :=
  take n (c_str src ++ replicate n NUL) ++ drop n dst.

(** Two's-complement integers: [int] is 32 bits wide and [long] 64 (LP64).
    Arithmetic that leaves the range wraps around. *)
Definition sint (w : Z) (z : Z) : Z := ((z + 2 ^ (w - 1)) mod 2 ^ w - 2 ^ (w - 1))%Z.
Definition int32 : Z -> Z := sint 32.
Definition int64 : Z -> Z := sint 64.
Definition LONG_MAX : Z := (2 ^ 63 - 1)%Z.
Definition LONG_MIN : Z := (- 2 ^ 63)%Z.

(** The value of a digit or letter in [strtol]. *)
Definition digit_val (c : ascii) : option Z :=
  if isdigit c then Some (code c - 48)%Z
  else if islower c then Some (code c - 97 + 10)%Z
  else if isupper c then Some (code c - 65 + 10)%Z
  else None.

Fixpoint scan_digits (base : Z) (s : list ascii) (acc : Z) : Z :=
  match s with
  | [] => acc
  | c :: s' =>
      match digit_val c with
      | Some d => if (d <? base)%Z then scan_digits base s' (acc * base + d)%Z else acc
      | None => acc
      end
  end.

Fixpoint skip_spaces (s : list ascii) : list ascii :=
  match s with
  | c :: s' => if isspace c then skip_spaces s' else s
  | [] => []
  end.

(** The value of [strtol(s, NULL, base)] for an explicit base (10 or 16
    here): leading white space, an optional sign, for base 16 an optional
    [0x]/[0X], then the longest run of digits of the base (none gives 0); a
    value out of the range of [long] is clamped to [LONG_MAX] or
    [LONG_MIN]. *)
Definition strtol (s : list ascii) (base : Z) : Z :=
  let s1 := skip_spaces s in
  let '(neg, s2) :=
    match s1 with
    | c :: r =>
        if Ascii.eqb c "-" then (true, r)
        else if Ascii.eqb c "+" then (false, r)
        else (false, s1)
    | [] => (false, s1)
    end in
  let s3 :=
    if (base =? 16)%Z then
      match s2 with
      | c0 :: cx :: r =>
          if Ascii.eqb c0 "0" && Ascii.eqb (tolower cx) "x" then r else s2
      | _ => s2
      end
    else s2 in
  let v := scan_digits base s3 0 in
  if neg then Z.max LONG_MIN (- v) else Z.min LONG_MAX v.

(** [atoi(s)] is [(int) strtol(s, NULL, 10)]. *)
Definition atoi (s : list ascii) : Z := int32 (strtol s 10).

End Libc.

Import Libc.

(** String literals of the source, as bytes. *)
Definition bytes (s : string) : list ascii := list_ascii_of_string s.
Definition newline : ascii := "010"%char.
Definition dquote : ascii := "034"%char.

(* ===================================================================== *)
(** ** The translation unit parse.c                                         *)
(* ===================================================================== *)

(** [option_type_t]. *)
Inductive option_type_t : Set := OPTION_BOOLEAN | OPTION_NUMERIC | OPTION_TEXT.

(** The union [data] of a [struct option]: the member last stored. *)
Inductive option_data : Set :=
| data_numeric (numeric : Z)
| data_text (text : list ascii).

(** [struct option]; the [next] link is the tail of the list that holds it. *)
Record struct_option : Set := mk_option {
  o_name : list ascii;
  o_type : option_type_t;
  o_help : list ascii;
  o_data : option_data
}.

(** [char **text]: the line buffer and the offset of [*text] in it. *)
Record cursor : Set := mk_cursor {
  cur_buf : list ascii;
  cur_pos : nat
}.

Section Parse.

(** Whatever lies outside this file and a command handler may change. *)
Context {E : Type}.

(** The file-scope variables of parse.c, the error stream and the rest of
    the world. *)
Record pstate : Type := mk_pstate {
  option_list : list struct_option;
  interactive_call : Z;
  token_buf : list ascii;          (* static char token_buf[64] *)
  token_len : nat;
  token_mult : Z;
  token_sum : Z;
  stderr : list ascii;
  ext : E
}.

Definition set_option_list v (st : pstate) : pstate :=
  mk_pstate v (interactive_call st) (token_buf st) (token_len st)
            (token_mult st) (token_sum st) (stderr st) (ext st).
Definition set_interactive_call v (st : pstate) : pstate :=
  mk_pstate (option_list st) v (token_buf st) (token_len st)
            (token_mult st) (token_sum st) (stderr st) (ext st).
Definition set_token_buf v (st : pstate) : pstate :=
  mk_pstate (option_list st) (interactive_call st) v (token_len st)
            (token_mult st) (token_sum st) (stderr st) (ext st).
Definition set_token_len v (st : pstate) : pstate :=
  mk_pstate (option_list st) (interactive_call st) (token_buf st) v
            (token_mult st) (token_sum st) (stderr st) (ext st).
Definition set_token_mult v (st : pstate) : pstate :=
  mk_pstate (option_list st) (interactive_call st) (token_buf st) (token_len st)
            v (token_sum st) (stderr st) (ext st).
Definition set_token_sum v (st : pstate) : pstate :=
  mk_pstate (option_list st) (interactive_call st) (token_buf st) (token_len st)
            (token_mult st) v (stderr st) (ext st).

(** [fprintf(stderr, ...)] with the formatted text already built. *)
Definition fprintf_stderr (msg : list ascii) (st : pstate) : pstate :=
  mk_pstate (option_list st) (interactive_call st) (token_buf st) (token_len st)
            (token_mult st) (token_sum st) (stderr st ++ msg) (ext st).

(** [struct command]: a handler receives the cursor [char **arg], returns
    its status and may change the buffer, the cursor and the state. *)
Record command : Type := mk_command {
  c_name : list ascii;
  c_func : cursor -> pstate -> Z * cursor * pstate;
  c_help : list ascii
}.

(** [stab_get] of stab.h: the value of a symbol, when it has one. *)
Variable stab_get : list ascii -> option Z.

(** [all_commands]: the entries before the terminating entry, whose
    [name] is [NULL]. *)
Variable all_commands : list command.

(** [sizeof(o->data.text)], declared in parse.h. *)
Variable text_size : nat.

(** [sizeof(token_buf)]. *)
Definition TOKEN_BUF_SIZE : nat := 64.

Definition register_option (o : struct_option) (st : pstate) : pstate :=
  set_option_list (o :: option_list st) st.

Fixpoint find_option_in (l : list struct_option) (name : list ascii)
  : option struct_option :=
  match l with
  | [] => None
  | o :: next =>
      if (strcasecmp (o_name o) name =? 0)%Z then Some o
      else find_option_in next name
  end.

Definition find_option (name : list ascii) (st : pstate) : option struct_option :=
  find_option_in (option_list st) name.

Definition is_interactive (st : pstate) : Z := interactive_call st.

(** [get_arg]: [None] for the argument is a null [text]; the token returned
    is its offset in the buffer of the cursor returned. *)
Definition get_arg (text : option cursor) : option nat * option cursor :=
  match text with
  | None => (None, None)
  | Some t =>
      let buf := cur_buf t in
      let start := skip_while isspace (length buf - cur_pos t) buf (cur_pos t) in
      if negb (truthy (peek buf start)) then (None, text)
      else
        let end_ := skip_while (fun c => negb (isspace c)) (length buf - start) buf start in
        let '(buf', end') :=
          if truthy (peek buf end_)
          then zero_while isspace (length buf - end_) buf end_
          else (buf, end_) in
        (Some start, Some (mk_cursor buf' end'))
  end.

Fixpoint find_command_in (tbl : list command) (name : list ascii) : option command :=
  match tbl with
  | [] => None
  | c :: tbl' =>
      if (strcasecmp name (c_name c) =? 0)%Z then Some c
      else find_command_in tbl' name
  end.

Definition find_command (name : list ascii) : option command :=
  find_command_in all_commands name.

(** [while (len && isspace(arg[len - 1])) len--;] *)
Fixpoint trim_len (arg : list ascii) (len : nat) : nat :=
  match len with
  | O => O
  | S l => if isspace (peek arg l) then trim_len arg l else len
  end.

Definition unknown_command_msg (cmd_text : list ascii) : list ascii :=
  bytes "unknown command: " ++ cmd_text ++ bytes " (try " ++ [dquote]
    ++ bytes "help" ++ [dquote] ++ bytes ")" ++ [newline].

(** [process_command]: the status, the caller's buffer as it is left, and
    the state. *)
Definition process_command (arg : list ascii) (interactive : Z) (st : pstate)
  : Z * list ascii * pstate :=
  let len := strlen arg in
  let len := trim_len arg len in
  let arg := poke arg len NUL in
  match get_arg (Some (mk_cursor arg 0)) with
  | (Some cmd_text, Some arg') =>
      match find_command (c_str (drop cmd_text (cur_buf arg'))) with
      | Some cmd =>
          let old := interactive_call st in
          let st := set_interactive_call interactive st in
          let '(ret, arg'', st) := c_func cmd arg' st in
          let st := set_interactive_call old st in
          (0%Z, cur_buf arg'', st)
      | None =>
          let st := fprintf_stderr
                      (unknown_command_msg (c_str (drop cmd_text (cur_buf arg')))) st in
          ((-1)%Z, cur_buf arg', st)
      end
  | _ => (0%Z, arg, st)
  end.

Definition is_term_char (c : ascii) : bool :=
  isalnum c || Ascii.eqb c "_" || Ascii.eqb c "$" || Ascii.eqb c "."
  || Ascii.eqb c ":".

(** The symbol value comes back through a [u_int16_t] cell. *)
Definition uint16 (v : Z) : Z := (v mod 65536)%Z.

Definition token_add (st : pstate) : Z * pstate :=
  if Nat.eqb (token_len st) 0 then (0%Z, st)
  else
    let st := set_token_buf (poke (token_buf st) (token_len st) NUL) st in
    let st := set_token_len 0 st in
    let buf := token_buf st in
    (* Is it a decimal? *)
    let i := skip_while isdigit (length buf) buf 0 in
    if negb (truthy (peek buf i)) then
      (0%Z, set_token_sum
              (int32 (token_sum st + int32 (token_mult st * atoi buf))) st)
    (* Is it hex? *)
    else if Ascii.eqb (peek buf 0) "0" && Ascii.eqb (tolower (peek buf 1)) "x" then
      (0%Z, set_token_sum
              (int32 (int64 (token_sum st
                             + int64 (token_mult st * strtol (drop 2 buf) 16)))) st)
    (* Look up the name in the symbol table *)
    else
      match stab_get (c_str buf) with
      | Some value =>
          (0%Z, set_token_sum
                  (int32 (token_sum st + int32 (token_mult st * uint16 value))) st)
      | None =>
          ((-1)%Z,
           fprintf_stderr (bytes "unknown token: " ++ c_str buf ++ [newline]) st)
      end.

(** The loop of [addr_exp] over the bytes of [text], up to its terminator. *)
Fixpoint addr_exp_loop (text : list ascii) (st : pstate) : Z * pstate :=
  match text with
  | [] => (0%Z, st)
  | c :: text' =>
      if negb (truthy c) then (0%Z, st)
      else if is_term_char c then
        let st :=
          if token_len st + 1 <? TOKEN_BUF_SIZE
          then set_token_len (token_len st + 1)
                 (set_token_buf (poke (token_buf st) (token_len st) c) st)
          else st in
        addr_exp_loop text' st
      else
        let '(r, st) := token_add st in
        if (r <? 0)%Z then ((-1)%Z, st)
        else
          let st := if Ascii.eqb c "+" then set_token_mult 1 st else st in
          let st := if Ascii.eqb c "-" then set_token_mult (-1) st else st in
          addr_exp_loop text' st
  end.

(** [addr_exp]: the status, the value stored to [*addr] ([None] when the
    function returns without storing), and the state. *)
Definition addr_exp (text : list ascii) (st : pstate) : Z * option Z * pstate :=
  let st := set_token_len 0 st in
  let st := set_token_mult 1 st in
  let st := set_token_sum 0 st in
  let '(r, st) := addr_exp_loop text st in
  if (r <? 0)%Z then ((-1)%Z, None, st)
  else
    let '(r, st) := token_add st in
    if (r <? 0)%Z then ((-1)%Z, None, st)
    else (0%Z, Some (Z.land (token_sum st) 65535), st).

Definition bool_int (b : bool) : Z := if b then 1%Z else 0%Z.

(** [parse_option]: the status, the option as it is left, and the state. *)
Definition parse_option (o : struct_option) (word : list ascii) (st : pstate)
  : Z * struct_option * pstate :=
  match o_type o with
  | OPTION_BOOLEAN =>
      let v := (isdigit (peek word 0) && (code "0" <? code (peek word 0))%Z)
               || Ascii.eqb (peek word 0) "t" || Ascii.eqb (peek word 0) "y"
               || (Ascii.eqb (peek word 0) "o" && Ascii.eqb (peek word 1) "n") in
      (0%Z, mk_option (o_name o) (o_type o) (o_help o) (data_numeric (bool_int v)), st)
  | OPTION_NUMERIC =>
      let '(r, stored, st) := addr_exp word st in
      let d := match stored with
               | Some n => data_numeric n
               | None => o_data o
               end in
      (r, mk_option (o_name o) (o_type o) (o_help o) d, st)
  | OPTION_TEXT =>
      let old := match o_data o with
                 | data_text t => t
                 | data_numeric _ => replicate text_size NUL
                 end in
      let t := strncpy old word text_size in
      let t := poke t (text_size - 1) NUL in
      (0%Z, mk_option (o_name o) (o_type o) (o_help o) (data_text t), st)
  end.

End Parse.

Arguments pstate : clear implicits.
Arguments command : clear implicits.

(* ===================================================================== *)
(** ** Reference definitions, after the prose specification                *)
(* ===================================================================== *)

Module Spec.

Section Runs.
Context {A : Type} (p : A -> bool).

Fixpoint take_while (s : list A) : list A :=
  match s with
  | c :: s' => if p c then c :: take_while s' else []
  | [] => []
  end.

Fixpoint drop_while (s : list A) : list A :=
  match s with
  | c :: s' => if p c then drop_while s' else s
  | [] => []
  end.
End Runs.

Definition nonspace (c : ascii) : bool := negb (isspace c).

(** The token of a text: its first maximal run of non-whitespace. *)
Definition first_token (s : list ascii) : list ascii :=
  take_while nonspace (drop_while isspace s).

(** What follows the token and the whitespace after it. *)
Definition after_token (s : list ascii) : list ascii :=
  drop_while isspace (drop_while nonspace (drop_while isspace s)).

(** Names are compared after folding letters to lower case. *)
Definition lower (s : list ascii) : list ascii := map tolower s.
Definition case_variant (a b : list ascii) : Prop := lower a = lower b.

(** An address expression is a sequence of terms (maximal runs of term
    characters) and separator characters. *)
Inductive item : Set :=
| Term (t : list ascii)
| Sep (c : ascii).

Definition term_char (c : ascii) : bool :=
  isalnum c || existsb (Ascii.eqb c) (bytes "_$.:").

Fixpoint lex (s : list ascii) : list item :=
  match s with
  | [] => []
  | c :: s' =>
      if term_char c then
        match lex s' with
        | Term t :: r => Term (c :: t) :: r
        | r => Term [c] :: r
        end
      else Sep c :: lex s'
  end.

(** What the evaluation looks at of a term: all of it, or, as a term is
    held in a bounded buffer, its first 63 characters, the ones beyond
    being dropped. *)
Definition whole (t : list ascii) : list ascii := t.
Definition buffered (t : list ascii) : list ascii := take 63 t.

Definition all_decimal (t : list ascii) : bool := forallb isdigit t.

Definition hex_prefixed (t : list ascii) : bool :=
  match t with
  | c0 :: c1 :: _ => Ascii.eqb c0 "0" && (Ascii.eqb c1 "x" || Ascii.eqb c1 "X")
  | _ => false
  end.

(** The number a string of digits denotes in a base. *)
Definition digits_value (base : Z) (t : list ascii) : Z :=
  fold_left (fun acc c => (acc * base + default 0 (digit_val c))%Z) t 0%Z.

Definition is_xdigit (c : ascii) : bool :=
  match digit_val c with
  | Some d => (d <? 16)%Z
  | None => false
  end.

Inductive term_kind : Set := Decimal | Hex | Symbol.

(** The result of an evaluation: a value, or the error "unknown token"
    with the term it is about. *)
Inductive result : Set :=
| Value (v : Z)
| ExpressionError (term : list ascii).

Definition classify (t : list ascii) : term_kind :=
  if all_decimal t then Decimal
  else if hex_prefixed t then Hex
  else Symbol.

Section Eval.
(** The symbol-resolution collaborator: a 16-bit value, when found. *)
Variable resolve : list ascii -> option Z.

(** Term resolution, in the fixed order decimal, hex, symbol. *)
Definition term_value (t : list ascii) : option Z :=
  match classify t with
  | Decimal => Some (atoi t)
  | Hex => Some (strtol (drop 2 t) 16)
  | Symbol => option_map (fun v => (v mod 65536)%Z) (resolve t)
  end.

Definition next_sign (c : ascii) (sign : Z) : Z :=
  if Ascii.eqb c "+" then 1%Z
  else if Ascii.eqb c "-" then (-1)%Z
  else sign.

(** What is kept of a term: [whole] or [buffered]. *)
Variable cut : list ascii -> list ascii.

(** One pass over the items with the running [sum] and [sign]; a term
    that does not resolve ends it with the error that names the term. *)
Fixpoint eval_items (items : list item) (sum sign : Z) : result :=
  match items with
  | [] => Value sum
  | Term t :: r =>
      match term_value (cut t) with
      | Some v => eval_items r (sum + sign * v)%Z sign
      | None => ExpressionError (cut t)
      end
  | Sep c :: r => eval_items r sum (next_sign c sign)
  end.

(** The address of an expression: the sum cut to 16 bits. *)
Definition eval (text : list ascii) : result :=
  match eval_items (lex text) 0 1 with
  | Value sum => Value (Z.land sum 65535)
  | ExpressionError t => ExpressionError t
  end.

(** A term of the expression that nothing resolves. *)
Definition unresolved (t : list ascii) : Prop :=
  term_value (cut t) = None.
End Eval.

(** The Boolean reading of a word. *)
Definition bool_word (w : list ascii) : bool :=
  match w with
  | [] => false
  | c :: r =>
      (isdigit c && (code "0" <? code c)%Z) || Ascii.eqb c "t" || Ascii.eqb c "y"
      || match r with
         | d :: _ => Ascii.eqb c "o" && Ascii.eqb d "n"
         | [] => false
         end
  end.

End Spec.

(* ===================================================================== *)
(** ** Definitions used to state and prove the properties                  *)
(* ===================================================================== *)

(** The three components of what a function of parse.c returns here. *)
Definition status {A B} (out : Z * A * B) : Z := fst (fst out).
Definition stored {A B} (out : Z * A * B) : A := snd (fst out).
Definition final {A B} (out : Z * A * B) : B := snd out.

(** The state a program starts in: file-scope variables are zero. *)
Definition initial_state {E} (e : E) : pstate E :=
  mk_pstate [] 0 (replicate TOKEN_BUF_SIZE NUL) 0 0 0 [] e.

(** The guard of a scanning loop: the byte is not the terminator and is in
    the class. *)
Definition live (p : ascii -> bool) (c : ascii) : bool := truthy c && p c.

(** The line as [process_command] hands it to [get_arg]: the buffer with the
    terminator stored after the last character that is not white space. *)
Definition trimmed (arg : list ascii) : list ascii :=
  poke arg (trim_len arg (strlen arg)) NUL.

(** An entry matches a name when the two are equal up to letter case. *)
Definition cmd_matches {E} (name : list ascii) (c : command E) : Prop :=
  Spec.case_variant (c_str name) (c_str (c_name c)).
Definition opt_matches (name : list ascii) (o : struct_option) : Prop :=
  Spec.case_variant (c_str name) (c_str (o_name o)).

(** Two integers with the same low 32 bits. *)
Definition eqm32 (a b : Z) : Prop := exists k : Z, (a = b + k * 2 ^ 32)%Z.

Section EvaluatorState.
Context {E : Type}.
Variable stab_get : list ascii -> option Z.

(** What the file-scope tokenizer variables hold while [addr_exp] runs:
    the characters [run] of the current term, of which the buffer keeps
    the first 63, the sum so far modulo 2^32 and the sign. *)
Record tok_inv (st : pstate E) (run : list ascii) (sum mult : Z) : Prop := {
  inv_buf : length (token_buf st) = TOKEN_BUF_SIZE;
  inv_len : token_len st = length (Spec.buffered run);
  inv_run : take (token_len st) (token_buf st) = Spec.buffered run;
  inv_chars : forallb is_term_char run = true;
  inv_sum : eqm32 (token_sum st) sum;
  inv_mult : token_mult st = mult
}.

(** The items that remain when the characters [run] of a term have been
    read and [items] is the reading of the rest of the text. *)
Definition glue (run : list ascii) (items : list Spec.item) : list Spec.item :=
  match run with
  | [] => items
  | _ =>
      match items with
      | Spec.Term t :: r => Spec.Term (run ++ t) :: r
      | _ => Spec.Term run :: items
      end
  end.

(** What [addr_exp] does once its loop has ended. *)
Definition finish (out : Z * pstate E) : Z * option Z * pstate E :=
  let '(r, st) := out in
  if (r <? 0)%Z then ((-1)%Z, None, st)
  else
    let '(r, st) := token_add stab_get st in
    if (r <? 0)%Z then ((-1)%Z, None, st)
    else (0%Z, Some (Z.land (token_sum st) 65535), st).

(** An outcome of the code, started in [st0], that is the result [v] of
    the reference pass: status, store to the address cell, error stream. *)
Definition agrees (st0 : pstate E) (out : Z * option Z * pstate E)
           (v : Spec.result) : Prop :=
  match v with
  | Spec.Value sum =>
      out.1.1 = 0%Z /\ out.1.2 = Some (Z.land sum 65535)
      /\ stderr out.2 = stderr st0
  | Spec.ExpressionError t =>
      out.1.1 = (-1)%Z /\ out.1.2 = None
      /\ stderr out.2 = stderr st0 ++ bytes "unknown token: " ++ t ++ [newline]
  end.

End EvaluatorState.

(** The text is the concatenation of its items. *)
Definition item_text (i : Spec.item) : list ascii :=
  match i with
  | Spec.Term t => t
  | Spec.Sep c => [c]
  end.

(** Terms are not empty, are made of term characters, and no two are
    adjacent: each is a maximal run. *)
Fixpoint well_lexed (items : list Spec.item) : Prop :=
  match items with
  | [] => True
  | Spec.Term t :: r =>
      t <> [] /\ forallb Spec.term_char t = true
      /\ match r with
         | Spec.Term _ :: _ => False
         | _ => True
         end
      /\ well_lexed r
  | Spec.Sep c :: r => Spec.term_char c = false /\ well_lexed r
  end.

(** [addr_exp] agrees with the reference pass that takes the terms by [cut]:
    same status, and the value stored is the one the pass gives. *)
Definition single_pass {E} (cut : list ascii -> list ascii)
    (stab_get : list ascii -> option Z) (st : pstate E) (text : list ascii) : Prop :=
  match Spec.eval stab_get cut (c_str text) with
  | Spec.Value a =>
      status (addr_exp stab_get text st) = 0%Z
      /\ stored (addr_exp stab_get text st) = Some a
  | Spec.ExpressionError _ =>
      status (addr_exp stab_get text st) = (-1)%Z
      /\ stored (addr_exp stab_get text st) = None
  end.

(** How many times a byte occurs. *)
Fixpoint count_byte (c : ascii) (s : list ascii) : nat :=
  match s with
  | [] => 0
  | x :: s' => (if Ascii.eqb x c then 1 else 0) + count_byte c s'
  end.

(* ===================================================================== *)
(** ** Data of the examples                                                 *)
(* ===================================================================== *)

(** A symbol table with [a = 5], [b = 3] and [c = 2]. *)
Definition abc_stab (name : list ascii) : option Z :=
  match name with
  | [c] =>
      if Ascii.eqb c "a" then Some 5%Z
      else if Ascii.eqb c "b" then Some 3%Z
      else if Ascii.eqb c "c" then Some 2%Z
      else None
  | _ => None
  end.

(** The empty symbol table. *)
Definition no_stab (name : list ascii) : option Z := None.

(** A term one character longer than the buffer holds: 62 zeros, 7, z. *)
Definition long_term : list ascii := replicate 62 "0"%char ++ bytes "7z".

(** A handler that fails: it writes to the error stream and returns -1. *)
Definition failing_handler {E} (arg : cursor) (st : pstate E) : Z * cursor * pstate E :=
  ((-1)%Z, arg, fprintf_stderr (bytes "failed" ++ [newline]) st).

Definition demo_commands : list (command unit) :=
  [mk_command (bytes "help") failing_handler []].

(** A handler that records the interactive flag it runs under. *)
Definition log_flag (arg : cursor) (st : pstate (list Z)) : Z * cursor * pstate (list Z) :=
  (0%Z, arg,
   mk_pstate (option_list st) (interactive_call st) (token_buf st) (token_len st)
             (token_mult st) (token_sum st) (stderr st) (is_interactive st :: ext st)).

Definition inner_commands : list (command (list Z)) :=
  [mk_command (bytes "inner") log_flag []].

(** A handler that dispatches a command of its own, not interactive, and
    records the flag once that returns. *)
Definition outer_handler (arg : cursor) (st : pstate (list Z))
  : Z * cursor * pstate (list Z) :=
  let '(_, _, st) := process_command inner_commands (bytes "inner") 0 st in
  log_flag arg st.

Definition outer_commands : list (command (list Z)) :=
  [mk_command (bytes "outer") outer_handler []].

(** Two option entries called color, the first in scan order in upper case. *)
Definition demo_options : list struct_option :=
  [mk_option (bytes "COLOR") OPTION_BOOLEAN [] (data_numeric 1);
   mk_option (bytes "color") OPTION_NUMERIC [] (data_numeric 0)].

(* ===================================================================== *)
(** ** Bytes and character classes                                          *)
(* ===================================================================== *)

(** A fact about one byte is settled on its 256 values. *)
Ltac each_byte c :=
  destruct c as [[] [] [] [] [] [] [] []]; vm_compute; try reflexivity;
  try discriminate; try tauto.

Lemma is_nul_true c : is_nul c = true <-> c = NUL.
Proof. unfold is_nul. apply Ascii.eqb_eq. Qed.

Lemma truthy_false c : truthy c = false <-> c = NUL.
Proof. unfold truthy. rewrite negb_false_iff. apply is_nul_true. Qed.

Lemma truthy_NUL : truthy NUL = false.
Proof. reflexivity. Qed.

Lemma isspace_truthy c : isspace c = true -> truthy c = true.
Proof. each_byte c. Qed.

Lemma isdigit_truthy c : isdigit c = true -> truthy c = true.
Proof. each_byte c. Qed.

Lemma is_term_char_truthy c : is_term_char c = true -> truthy c = true.
Proof. each_byte c. Qed.

Lemma is_term_char_spec c : is_term_char c = Spec.term_char c.
Proof. each_byte c. Qed.

Lemma tolower_is_nul c : is_nul (tolower c) = is_nul c.
Proof. each_byte c. Qed.

Lemma tolower_idem c : tolower (tolower c) = tolower c.
Proof. each_byte c. Qed.

Lemma tolower_x c :
  Ascii.eqb (tolower c) "x" = Ascii.eqb c "x" || Ascii.eqb c "X".
Proof. each_byte c. Qed.

Lemma code_inj a b : code a = code b -> a = b.
Proof.
  unfold code. intros H. apply N2Z.inj in H.
  rewrite <- (ascii_N_embedding a), <- (ascii_N_embedding b). now f_equal.
Qed.

Lemma code_diff_zero a b : (code a - code b =? 0)%Z = Ascii.eqb a b.
Proof.
  destruct (Ascii.eqb_spec a b) as [->|Hne].
  - rewrite Z.sub_diag. reflexivity.
  - apply Z.eqb_neq. intros H. apply Hne, code_inj. lia.
Qed.

Lemma isspace_not_term c : isspace c = true -> is_term_char c = false.
Proof. each_byte c. Qed.

Lemma newline_isspace : isspace newline = true.
Proof. reflexivity. Qed.

(* ===================================================================== *)
(** ** C strings in memory                                                  *)
(* ===================================================================== *)

Lemma peek_nil i : peek [] i = NUL.
Proof. reflexivity. Qed.

Lemma peek_cons_0 c m : peek (c :: m) 0 = c.
Proof. reflexivity. Qed.

Lemma peek_cons_S c m i : peek (c :: m) (S i) = peek m i.
Proof. reflexivity. Qed.

Lemma peek_app_length pre m : peek (pre ++ m) (length pre) = hd NUL m.
Proof.
  unfold peek. induction pre as [|x pre IH]; simpl.
  - destruct m; reflexivity.
  - exact IH.
Qed.

Lemma peek_app_l pre m i : i < length pre -> peek (pre ++ m) i = peek pre i.
Proof. intros H. unfold peek. now rewrite lookup_app_l. Qed.

Lemma peek_ge buf i : length buf <= i -> peek buf i = NUL.
Proof. intros H. unfold peek. now rewrite lookup_ge_None_2. Qed.

Lemma poke_app_length pre c m x :
  poke (pre ++ c :: m) (length pre) x = pre ++ x :: m.
Proof.
  unfold poke. induction pre as [|y pre IH]; simpl.
  - reflexivity.
  - now rewrite IH.
Qed.

Lemma c_str_nul_free m : forallb truthy (c_str m) = true.
Proof.
  induction m as [|c m IH]; simpl; [reflexivity|].
  destruct (is_nul c) eqn:Hc; simpl; [reflexivity|].
  unfold truthy at 1. now rewrite Hc.
Qed.

Lemma c_str_app t r :
  forallb truthy t = true -> c_str (t ++ r) = t ++ c_str r.
Proof.
  induction t as [|c t IH]; simpl; [reflexivity|].
  intros H. apply andb_true_iff in H as [Hc Ht].
  unfold truthy in Hc. apply negb_true_iff in Hc. rewrite Hc.
  now rewrite IH.
Qed.

Lemma c_str_nul_head r : c_str (NUL :: r) = [].
Proof. reflexivity. Qed.

Lemma c_str_id t : forallb truthy t = true -> c_str t = t.
Proof.
  intros H. rewrite <- (app_nil_r t) at 1. rewrite c_str_app by assumption.
  simpl. apply app_nil_r.
Qed.

Lemma c_str_app_nul t r : forallb truthy t = true -> c_str (t ++ NUL :: r) = t.
Proof. intros H. rewrite c_str_app by assumption. simpl. apply app_nil_r. Qed.

Lemma c_str_idem m : c_str (c_str m) = c_str m.
Proof. apply c_str_id, c_str_nul_free. Qed.

(** Memory splits into its first string and what lies from the terminator on. *)
Lemma c_str_split m :
  exists r, m = c_str m ++ r /\ truthy (hd NUL r) = false.
Proof.
  induction m as [|c m [r [Hm Hr]]]; simpl.
  - exists []. split; reflexivity.
  - destruct (is_nul c) eqn:Hc.
    + exists (c :: m). split; [reflexivity|]. simpl. unfold truthy. now rewrite Hc.
    + exists r. split; [|assumption]. simpl. now f_equal.
Qed.

Lemma c_str_stop r : truthy (hd NUL r) = false -> c_str r = [].
Proof.
  destruct r as [|c r]; simpl; [reflexivity|].
  unfold truthy. rewrite negb_false_iff. now intros ->.
Qed.

(* ===================================================================== *)
(** ** Runs of characters and the scanning loops                            *)
(* ===================================================================== *)

Section Runs.
Context {A : Type} (p : A -> bool).

Lemma take_drop_while l : Spec.take_while p l ++ Spec.drop_while p l = l.
Proof.
  induction l as [|c l IH]; simpl; [reflexivity|].
  destruct (p c); simpl; [now f_equal | reflexivity].
Qed.

Lemma take_while_all l : forallb p (Spec.take_while p l) = true.
Proof.
  induction l as [|c l IH]; simpl; [reflexivity|].
  destruct (p c) eqn:Hc; simpl; [now rewrite Hc | reflexivity].
Qed.

Lemma drop_while_head l d :
  Spec.drop_while p l = [] \/ p (hd d (Spec.drop_while p l)) = false.
Proof.
  induction l as [|c l IH]; simpl; [now left|].
  destruct (p c) eqn:Hc; [exact IH | right; exact Hc].
Qed.

Lemma drop_while_nil_iff l : Spec.drop_while p l = [] <-> forallb p l = true.
Proof.
  induction l as [|c l IH]; simpl; [tauto|].
  destruct (p c); simpl; [exact IH|]. split; discriminate.
Qed.
End Runs.

Section Loops.
Variable p : ascii -> bool.

Lemma live_NUL : live p NUL = false.
Proof. reflexivity. Qed.

Lemma take_while_live_c_str m :
  Spec.take_while (live p) m = Spec.take_while p (c_str m).
Proof.
  induction m as [|c m IH]; simpl; [reflexivity|].
  unfold live at 1, truthy. destruct (is_nul c); simpl; [reflexivity|].
  destruct (p c); [now f_equal | reflexivity].
Qed.

Lemma drop_while_live_c_str m :
  c_str (Spec.drop_while (live p) m) = Spec.drop_while p (c_str m).
Proof.
  induction m as [|c m IH]; simpl; [reflexivity|].
  unfold live at 1, truthy. destruct (is_nul c) eqn:Hc; simpl.
  - now rewrite Hc.
  - destruct (p c); [exact IH|]. simpl. now rewrite Hc.
Qed.

Lemma take_while_live_nul_free m :
  forallb truthy (Spec.take_while (live p) m) = true.
Proof.
  induction m as [|c m IH]; simpl; [reflexivity|].
  unfold live at 1. destruct (truthy c) eqn:Hc; simpl; [|reflexivity].
  destruct (p c); simpl; [now rewrite Hc | reflexivity].
Qed.

Lemma skip_while_app m : forall pre n,
  length m <= n ->
  skip_while p n (pre ++ m) (length pre)
  = length pre + length (Spec.take_while (live p) m).
Proof.
  induction m as [|c m IH]; intros pre n Hn.
  - clear Hn. simpl. destruct n; simpl.
    + lia.
    + rewrite peek_app_length. simpl. lia.
  - destruct n as [|n]; [simpl in Hn; lia|].
    simpl. rewrite peek_app_length. simpl. fold (live p c).
    destruct (live p c) eqn:Hc; [|simpl; lia].
    replace (pre ++ c :: m) with ((pre ++ [c]) ++ m) by now rewrite <- app_assoc.
    replace (S (length pre)) with (length (pre ++ [c]))
      by (rewrite length_app; simpl; lia).
    rewrite IH by (simpl in Hn; lia).
    rewrite length_app. simpl. lia.
Qed.

Lemma zero_while_app m : forall pre n,
  length m <= n ->
  zero_while p n (pre ++ m) (length pre)
  = (pre ++ replicate (length (Spec.take_while (live p) m)) NUL
         ++ Spec.drop_while (live p) m,
     length pre + length (Spec.take_while (live p) m)).
Proof.
  induction m as [|c m IH]; intros pre n Hn.
  - clear Hn. simpl. destruct n; simpl.
    + f_equal. lia.
    + rewrite peek_app_length. simpl. f_equal. lia.
  - destruct n as [|n]; [simpl in Hn; lia|].
    simpl. rewrite peek_app_length. simpl. fold (live p c).
    destruct (live p c) eqn:Hc.
    + rewrite poke_app_length.
      replace (pre ++ NUL :: m) with ((pre ++ [NUL]) ++ m) by now rewrite <- app_assoc.
      replace (S (length pre)) with (length (pre ++ [NUL]))
        by (rewrite length_app; simpl; lia).
      rewrite IH by (simpl in Hn; lia).
      rewrite length_app. simpl. rewrite <- app_assoc. simpl.
      f_equal. lia.
    + simpl. f_equal. lia.
Qed.
End Loops.

(* ===================================================================== *)
(** ** get_arg                                                              *)
(* ===================================================================== *)

Lemma live_stop p m :
  truthy (hd NUL m) = false ->
  Spec.take_while (live p) m = [] /\ Spec.drop_while (live p) m = m.
Proof.
  destruct m as [|c m]; simpl; [now split|].
  intros H. unfold live. rewrite H. simpl. now split.
Qed.

(** [get_arg] on a cursor at the region [m] of a buffer, in terms of the
    runs of [m]: white space [ws], token [tok], white space of length [k]. *)
Lemma get_arg_app pre m :
  let ws := Spec.take_while (live isspace) m in
  let m1 := Spec.drop_while (live isspace) m in
  let tok := Spec.take_while (live Spec.nonspace) m1 in
  let m2 := Spec.drop_while (live Spec.nonspace) m1 in
  let k := length (Spec.take_while (live isspace) m2) in
  let m3 := Spec.drop_while (live isspace) m2 in
  get_arg (Some (mk_cursor (pre ++ m) (length pre)))
  = if truthy (hd NUL m1)
    then (Some (length pre + length ws),
          Some (mk_cursor (pre ++ ws ++ tok ++ replicate k NUL ++ m3)
                          (length pre + length ws + length tok + k)))
    else (None, Some (mk_cursor (pre ++ m) (length pre))).
Proof.
  intros ws m1 tok m2 k m3.
  assert (Hm : m = ws ++ m1) by (symmetry; apply take_drop_while).
  assert (Hm1 : m1 = tok ++ m2) by (symmetry; apply take_drop_while).
  unfold get_arg. cbn [cur_buf cur_pos].
  rewrite skip_while_app by (rewrite length_app; lia).
  fold ws.
  assert (Hbuf1 : pre ++ m = (pre ++ ws) ++ m1) by (rewrite Hm at 1; now rewrite app_assoc).
  assert (Hpeek1 : peek (pre ++ m) (length pre + length ws) = hd NUL m1).
  { rewrite Hbuf1, <- length_app. apply peek_app_length. }
  rewrite Hpeek1.
  destruct (truthy (hd NUL m1)) eqn:Ht1; cbn [negb]; [|reflexivity].
  assert (Hend : skip_while (fun c => negb (isspace c))
                   (length (pre ++ m) - (length pre + length ws)) (pre ++ m)
                   (length pre + length ws)
                 = length (pre ++ ws) + length tok).
  { rewrite Hbuf1 at 2. rewrite <- length_app.
    apply (skip_while_app Spec.nonspace).
    rewrite Hbuf1, !length_app. lia. }
  rewrite Hend.
  assert (Hbuf2 : pre ++ m = (pre ++ ws ++ tok) ++ m2).
  { rewrite Hbuf1, Hm1. now rewrite <- !app_assoc. }
  assert (Hlen2 : length (pre ++ ws) + length tok = length (pre ++ ws ++ tok)).
  { rewrite !length_app. lia. }
  rewrite Hlen2.
  assert (Hpeek2 : peek (pre ++ m) (length (pre ++ ws ++ tok)) = hd NUL m2).
  { rewrite Hbuf2. apply peek_app_length. }
  rewrite Hpeek2.
  destruct (truthy (hd NUL m2)) eqn:Ht2.
  - rewrite Hbuf2 at 2.
    rewrite zero_while_app by (rewrite Hbuf2, !length_app; lia).
    fold k m3. do 2 f_equal. f_equal.
    + now rewrite <- !app_assoc.
    + rewrite !length_app. lia.
  - destruct (live_stop isspace m2 Ht2) as [Hk Hm3].
    unfold k, m3. rewrite Hk, Hm3. cbn [length replicate app].
    do 2 f_equal. f_equal.
    + rewrite Hbuf2. now rewrite <- !app_assoc.
    + rewrite !length_app. lia.
Qed.

(** The same at any offset of any buffer. *)
Lemma get_arg_at buf pos :
  pos <= length buf ->
  get_arg (Some (mk_cursor buf pos))
  = let m := drop pos buf in
    let ws := Spec.take_while (live isspace) m in
    let m1 := Spec.drop_while (live isspace) m in
    let tok := Spec.take_while (live Spec.nonspace) m1 in
    let m2 := Spec.drop_while (live Spec.nonspace) m1 in
    let k := length (Spec.take_while (live isspace) m2) in
    let m3 := Spec.drop_while (live isspace) m2 in
    if truthy (hd NUL m1)
    then (Some (pos + length ws),
          Some (mk_cursor (take pos buf ++ ws ++ tok ++ replicate k NUL ++ m3)
                          (pos + length ws + length tok + k)))
    else (None, Some (mk_cursor buf pos)).
Proof.
  intros Hpos.
  pose proof (get_arg_app (take pos buf) (drop pos buf)) as H.
  rewrite take_drop, length_take, Nat.min_l in H by assumption.
  exact H.
Qed.

(** A cursor beyond the buffer reads the terminator. *)
Lemma get_arg_beyond buf pos :
  length buf <= pos ->
  get_arg (Some (mk_cursor buf pos)) = (None, Some (mk_cursor buf pos)).
Proof.
  intros H. unfold get_arg. cbn [cur_buf cur_pos].
  replace (length buf - pos) with 0 by lia. cbn [skip_while].
  rewrite peek_ge by assumption. reflexivity.
Qed.

Lemma truthy_hd_c_str m : truthy (hd NUL m) = false <-> c_str m = [].
Proof.
  split; [apply c_str_stop|].
  destruct m as [|c m]; simpl; [reflexivity|].
  unfold truthy. destruct (is_nul c); [reflexivity | discriminate].
Qed.

(** After the token, the zeroed white space starts with a terminator, or the
    string had ended already. *)
Lemma c_str_after_token m1 :
  let m2 := Spec.drop_while (live Spec.nonspace) m1 in
  c_str (replicate (length (Spec.take_while (live isspace) m2)) NUL
         ++ Spec.drop_while (live isspace) m2) = [].
Proof.
  intros m2.
  destruct (drop_while_head (live Spec.nonspace) m1 NUL) as [H|H]; fold m2 in H.
  - rewrite H. reflexivity.
  - destruct m2 as [|c r]; [reflexivity|]. simpl in H. simpl.
    unfold live in H |- *. unfold Spec.nonspace in H.
    destruct (truthy c) eqn:Hc; simpl in H |- *.
    + apply negb_false_iff in H. rewrite H. reflexivity.
    + unfold truthy in Hc. apply negb_false_iff in Hc. now rewrite Hc.
Qed.

(** [get_arg] in terms of the text [s] at the cursor. *)
Lemma get_arg_text buf pos :
  let s := c_str (drop pos buf) in
  if forallb isspace s
  then get_arg (Some (mk_cursor buf pos)) = (None, Some (mk_cursor buf pos))
  else exists start buf' pos',
      get_arg (Some (mk_cursor buf pos)) = (Some start, Some (mk_cursor buf' pos'))
      /\ c_str (drop start buf') = Spec.first_token s
      /\ c_str (drop pos' buf') = Spec.after_token s
      /\ length buf' = length buf
      /\ take pos buf' = take pos buf
      /\ pos <= start < pos'.
Proof.
  intros s.
  destruct (Nat.le_gt_cases pos (length buf)) as [Hpos|Hpos].
  2:{ assert (Hs : s = []) by (unfold s; rewrite drop_ge by lia; reflexivity).
      rewrite Hs. simpl. apply get_arg_beyond. lia. }
  rewrite (get_arg_at buf pos Hpos). cbv zeta.
  set (m := drop pos buf) in *.
  set (ws := Spec.take_while (live isspace) m).
  set (m1 := Spec.drop_while (live isspace) m).
  set (tok := Spec.take_while (live Spec.nonspace) m1).
  set (m2 := Spec.drop_while (live Spec.nonspace) m1).
  set (k := length (Spec.take_while (live isspace) m2)).
  set (m3 := Spec.drop_while (live isspace) m2).
  assert (Hc1 : c_str m1 = Spec.drop_while isspace s) by apply drop_while_live_c_str.
  assert (Htok : tok = Spec.first_token s).
  { unfold tok, Spec.first_token. rewrite take_while_live_c_str. now rewrite Hc1. }
  assert (Hc2 : c_str m2 = Spec.drop_while Spec.nonspace (Spec.drop_while isspace s)).
  { unfold m2. rewrite drop_while_live_c_str. now rewrite Hc1. }
  assert (Hc3 : c_str m3 = Spec.after_token s).
  { unfold m3, Spec.after_token. rewrite drop_while_live_c_str. now rewrite Hc2. }
  destruct (forallb isspace s) eqn:Hall.
  - apply drop_while_nil_iff in Hall. rewrite <- Hc1 in Hall.
    apply truthy_hd_c_str in Hall. rewrite Hall. reflexivity.
  - assert (Ht : truthy (hd NUL m1) = true).
    { destruct (truthy (hd NUL m1)) eqn:Ht; [reflexivity|].
      apply truthy_hd_c_str in Ht. rewrite Hc1 in Ht.
      apply drop_while_nil_iff in Ht. congruence. }
    rewrite Ht.
    assert (Htokne : 0 < length tok).
    { destruct (drop_while_head (live isspace) m NUL) as [H|H]; fold m1 in H.
      - rewrite H in Ht. discriminate.
      - unfold tok. destruct m1 as [|c r] eqn:Em1; [discriminate|].
        simpl in Ht, H |- *. unfold live in H |- *. rewrite Ht in H |- *.
        simpl in H |- *. unfold Spec.nonspace. rewrite H. simpl. lia. }
    assert (Hlt : length (take pos buf) = pos) by (rewrite length_take; lia).
    eexists _, _, _. split; [reflexivity|].
    split; [|split; [|split; [|split]]].
    + replace (pos + length ws) with (length (take pos buf ++ ws))
        by (rewrite length_app; lia).
      rewrite (app_assoc (take pos buf) ws), drop_app_length.
      rewrite c_str_app by apply take_while_live_nul_free.
      fold tok. unfold k, m3, m2. rewrite (c_str_after_token m1).
      rewrite app_nil_r. exact Htok.
    + replace (pos + length ws + length tok + k)
        with (length (take pos buf ++ ws ++ tok ++ replicate k NUL))
        by (rewrite !length_app, length_replicate; lia).
      replace (take pos buf ++ ws ++ tok ++ replicate k NUL ++ m3)
        with ((take pos buf ++ ws ++ tok ++ replicate k NUL) ++ m3)
        by (now rewrite <- !app_assoc).
      rewrite drop_app_length. exact Hc3.
    + rewrite <- (take_drop pos buf) at 2. fold m.
      rewrite <- (take_drop_while (live isspace) m). fold ws m1.
      rewrite <- (take_drop_while (live Spec.nonspace) m1). fold tok m2.
      rewrite <- (take_drop_while (live isspace) m2). fold m3.
      rewrite !length_app, length_replicate. unfold k. lia.
    + rewrite <- Hlt at 1. rewrite take_app_length. reflexivity.
    + lia.
Qed.

(* ===================================================================== *)
(** ** process_command                                                      *)
(* ===================================================================== *)

Section RunsApp.
Context {A : Type} (p : A -> bool).

Lemma drop_while_app a w :
  Spec.drop_while p (a ++ w)
  = if forallb p a then Spec.drop_while p w else Spec.drop_while p a ++ w.
Proof.
  induction a as [|c a IH]; simpl; [reflexivity|].
  destruct (p c); simpl; [exact IH | reflexivity].
Qed.

Lemma take_while_app_stop a w d :
  w = [] \/ p (hd d w) = false ->
  Spec.take_while p (a ++ w) = Spec.take_while p a.
Proof.
  intros Hw. induction a as [|c a IH]; simpl.
  - destruct Hw as [->|Hw]; [reflexivity|].
    destruct w as [|x w]; [reflexivity|]. simpl in Hw |- *. now rewrite Hw.
  - destruct (p c); [now f_equal | reflexivity].
Qed.
End RunsApp.

(** Trailing white space does not change the token of a line. *)
Lemma first_token_app_spaces a w :
  forallb isspace w = true -> Spec.first_token (a ++ w) = Spec.first_token a.
Proof.
  intros Hw. unfold Spec.first_token. rewrite drop_while_app.
  destruct (forallb isspace a) eqn:Ha.
  - apply drop_while_nil_iff in Hw. rewrite Hw.
    apply drop_while_nil_iff in Ha. rewrite Ha. reflexivity.
  - apply take_while_app_stop with (d := NUL).
    destruct w as [|c w]; [now left|]. right. simpl in Hw |- *.
    apply andb_true_iff in Hw as [Hc _]. unfold Spec.nonspace. now rewrite Hc.
Qed.

Lemma trim_len_le arg len : trim_len arg len <= len.
Proof.
  induction len as [|l IH]; simpl; [lia|].
  destruct (isspace (peek arg l)); lia.
Qed.

Lemma trim_len_spaces arg len j :
  trim_len arg len <= j < len -> isspace (peek arg j) = true.
Proof.
  induction len as [|l IH]; simpl; [lia|].
  destruct (isspace (peek arg l)) eqn:Hl; [|lia].
  intros Hj. destruct (Nat.eq_dec j l) as [->|Hne]; [exact Hl|].
  apply IH. lia.
Qed.

Lemma forallb_drop_peek (p : ascii -> bool) s : forall a,
  (forall j, a <= j < length s -> p (peek s j) = true) ->
  forallb p (drop a s) = true.
Proof.
  induction s as [|c s IH]; intros a H.
  - now rewrite drop_nil.
  - destruct a as [|a].
    + assert (H0 : p (peek (c :: s) 0) = true) by (apply H; simpl; lia).
      rewrite peek_cons_0 in H0. simpl. rewrite H0. simpl.
      apply (IH 0). intros j Hj. apply (H (S j)). simpl. lia.
    + simpl. apply IH. intros j Hj. apply (H (S j)). simpl. lia.
Qed.

Lemma c_str_poke_nul s r n :
  forallb truthy s = true -> truthy (hd NUL r) = false -> n <= length s ->
  c_str (poke (s ++ r) n NUL) = take n s.
Proof.
  intros Hfree Hr Hn.
  destruct (Nat.eq_dec n (length s)) as [->|E].
  - rewrite take_ge by lia.
    destruct r as [|c r].
    + rewrite app_nil_r. unfold poke. rewrite list_insert_ge by lia.
      now apply c_str_id.
    + rewrite poke_app_length. now apply c_str_app_nul.
  - rewrite <- (take_drop n s) at 1.
    rewrite <- (take_drop n s), forallb_app in Hfree.
    apply andb_true_iff in Hfree as [Hfree _].
    destruct (drop n s) as [|c d] eqn:Ed.
    + exfalso. apply (f_equal length) in Ed. rewrite length_drop in Ed.
      simpl in Ed. lia.
    + rewrite <- app_assoc. simpl.
      replace n with (length (take n s)) at 2 by (rewrite length_take; lia).
      rewrite poke_app_length. now apply c_str_app_nul.
Qed.

Lemma trimmed_text arg :
  exists w, c_str arg = c_str (trimmed arg) ++ w /\ forallb isspace w = true.
Proof.
  destruct (c_str_split arg) as [r [Harg Hr]].
  unfold trimmed, strlen.
  pose proof (trim_len_le arg (length (c_str arg))) as Hn.
  assert (Hsp : forallb isspace
                  (drop (trim_len arg (length (c_str arg))) (c_str arg)) = true).
  { apply forallb_drop_peek. intros j Hj.
    rewrite <- (peek_app_l (c_str arg) r) by lia. rewrite <- Harg.
    apply (trim_len_spaces arg (length (c_str arg))). exact Hj. }
  pose proof (c_str_nul_free arg) as Hfree.
  remember (trim_len arg (length (c_str arg))) as n eqn:En. clear En.
  remember (c_str arg) as s eqn:Es.
  exists (drop n s). split; [|exact Hsp].
  rewrite Harg. rewrite c_str_poke_nul by assumption.
  symmetry. apply take_drop.
Qed.

Lemma trimmed_all_space arg :
  forallb isspace (c_str (trimmed arg)) = forallb isspace (c_str arg).
Proof.
  destruct (trimmed_text arg) as [w [Hs Hw]].
  rewrite Hs, forallb_app, Hw. now rewrite andb_true_r.
Qed.

Lemma trimmed_first_token arg :
  Spec.first_token (c_str (trimmed arg)) = Spec.first_token (c_str arg).
Proof.
  destruct (trimmed_text arg) as [w [Hs Hw]].
  rewrite Hs. symmetry. now apply first_token_app_spaces.
Qed.

(* ===================================================================== *)
(** ** strcasecmp and the two registries                                    *)
(* ===================================================================== *)

Lemma tolower_eq_nul c : tolower c = tolower NUL -> is_nul c = true.
Proof.
  intros H. rewrite <- tolower_is_nul, H. reflexivity.
Qed.

Lemma strcasecmp_zero a : forall b,
  strcasecmp a b = 0%Z <-> Spec.case_variant (c_str a) (c_str b).
Proof.
  unfold Spec.case_variant, Spec.lower.
  induction a as [|c a IH]; intros b.
  - cbn [strcasecmp hd]. rewrite code_diff_zero.
    destruct (Ascii.eqb_spec (tolower NUL) (tolower (hd NUL b))) as [E|E]; cbn [negb].
    + symmetry in E. apply tolower_eq_nul in E.
      destruct b as [|x b]; simpl; [tauto|]. simpl in E. rewrite E. simpl. tauto.
    + split.
      * intros H. exfalso. apply E. apply code_inj. lia.
      * intros H. exfalso. apply E. destruct b as [|x b]; [reflexivity|].
        simpl in H |- *. destruct (is_nul x) eqn:Hx; [|discriminate].
        apply is_nul_true in Hx. now subst x.
  - cbn [strcasecmp hd tl]. rewrite code_diff_zero.
    destruct (Ascii.eqb_spec (tolower c) (tolower (hd NUL b))) as [E|E]; cbn [negb].
    + destruct (is_nul c) eqn:Hc.
      * assert (Hb : is_nul (hd NUL b) = true).
        { apply tolower_eq_nul. rewrite <- E. apply is_nul_true in Hc. now subst c. }
        simpl. rewrite Hc. destruct b as [|x b]; simpl; [tauto|].
        simpl in Hb. rewrite Hb. simpl. tauto.
      * assert (Hb : is_nul (hd NUL b) = false).
        { rewrite <- tolower_is_nul, <- E, tolower_is_nul. exact Hc. }
        destruct b as [|x b]; [discriminate|]. simpl in E, Hb |- *.
        rewrite Hc, Hb. simpl. rewrite IH. rewrite E. split.
        -- intros H. now f_equal.
        -- intros H. now inversion H.
    + split.
      * intros H. exfalso. apply E. apply code_inj. lia.
      * intros H. exfalso. apply E. simpl in H.
        destruct (is_nul c) eqn:Hc.
        -- apply is_nul_true in Hc. subst c.
           destruct b as [|x b]; [reflexivity|]. simpl in H |- *.
           destruct (is_nul x) eqn:Hx; [|discriminate].
           apply is_nul_true in Hx. now subst x.
        -- destruct b as [|x b]; [discriminate|]. simpl in H |- *.
           destruct (is_nul x); [discriminate|]. simpl in H. now inversion H.
Qed.

Lemma strcasecmp_eqb a b a' b' :
  Spec.case_variant (c_str a) (c_str a') ->
  Spec.case_variant (c_str b) (c_str b') ->
  (strcasecmp a b =? 0)%Z = (strcasecmp a' b' =? 0)%Z.
Proof.
  unfold Spec.case_variant. intros Ha Hb.
  destruct (Z.eqb_spec (strcasecmp a b) 0) as [H|H];
    destruct (Z.eqb_spec (strcasecmp a' b') 0) as [H'|H']; try reflexivity; exfalso.
  - apply H'. apply strcasecmp_zero. apply strcasecmp_zero in H.
    unfold Spec.case_variant in *. congruence.
  - apply H. apply strcasecmp_zero. apply strcasecmp_zero in H'.
    unfold Spec.case_variant in *. congruence.
Qed.

Section Registries.
Context {E : Type}.

Lemma find_command_in_case (tbl : list (command E)) name name' :
  Spec.case_variant (c_str name) (c_str name') ->
  find_command_in tbl name = find_command_in tbl name'.
Proof.
  intros H. induction tbl as [|c tbl IH]; simpl; [reflexivity|].
  rewrite (strcasecmp_eqb name (c_name c) name' (c_name c) H eq_refl).
  now rewrite IH.
Qed.

Lemma find_option_in_case (l : list struct_option) name name' :
  Spec.case_variant (c_str name) (c_str name') ->
  find_option_in l name = find_option_in l name'.
Proof.
  intros H. induction l as [|o l IH]; simpl; [reflexivity|].
  rewrite (strcasecmp_eqb (o_name o) name (o_name o) name' eq_refl H).
  now rewrite IH.
Qed.

(** The entry found is the first one, in scan order, that matches. *)
Lemma find_command_in_first (tbl : list (command E)) name c :
  find_command_in tbl name = Some c <->
  exists i, tbl !! i = Some c /\ cmd_matches name c
            /\ forall j c', j < i -> tbl !! j = Some c' -> ~ cmd_matches name c'.
Proof.
  unfold cmd_matches. revert c. induction tbl as [|x tbl IH]; intros c; simpl.
  - split; [discriminate|]. intros [i [H _]]. now rewrite lookup_nil in H.
  - destruct (Z.eqb_spec (strcasecmp name (c_name x)) 0) as [Hx|Hx].
    + apply strcasecmp_zero in Hx. split.
      * intros [= <-]. exists 0. split; [reflexivity|]. split; [exact Hx|]. lia.
      * intros [i [Hi [Hm Hfirst]]]. destruct i as [|i].
        -- simpl in Hi. exact Hi.
        -- exfalso. apply (Hfirst 0 x); [lia | reflexivity | exact Hx].
    + rewrite strcasecmp_zero in Hx. rewrite IH. split.
      * intros [i [Hi [Hm Hfirst]]]. exists (S i). split; [exact Hi|].
        split; [exact Hm|]. intros j c' Hj Hc'. destruct j as [|j].
        -- simpl in Hc'. injection Hc' as <-. exact Hx.
        -- simpl in Hc'. apply (Hfirst j c'); [lia | exact Hc'].
      * intros [i [Hi [Hm Hfirst]]]. destruct i as [|i].
        -- simpl in Hi. injection Hi as <-. contradiction.
        -- exists i. split; [exact Hi|]. split; [exact Hm|].
           intros j c' Hj Hc'. apply (Hfirst (S j) c'); [lia | exact Hc'].
Qed.

Lemma find_command_in_none (tbl : list (command E)) name :
  find_command_in tbl name = None <->
  forall i c, tbl !! i = Some c -> ~ cmd_matches name c.
Proof.
  unfold cmd_matches. induction tbl as [|x tbl IH]; simpl.
  - split; [|reflexivity]. intros _ i c H. now rewrite lookup_nil in H.
  - destruct (Z.eqb_spec (strcasecmp name (c_name x)) 0) as [Hx|Hx].
    + apply strcasecmp_zero in Hx. split; [discriminate|].
      intros H. exfalso. apply (H 0 x); [reflexivity | exact Hx].
    + rewrite strcasecmp_zero in Hx. rewrite IH. split.
      * intros H i c Hi. destruct i as [|i].
        -- simpl in Hi. injection Hi as <-. exact Hx.
        -- apply (H i c Hi).
      * intros H i c Hi. apply (H (S i) c Hi).
Qed.

Lemma opt_matches_sym name o :
  strcasecmp (o_name o) name = 0%Z <-> opt_matches name o.
Proof.
  unfold opt_matches, Spec.case_variant. rewrite strcasecmp_zero.
  unfold Spec.case_variant. split; intros H; now symmetry.
Qed.

Lemma find_option_in_first (l : list struct_option) name o :
  find_option_in l name = Some o <->
  exists i, l !! i = Some o /\ opt_matches name o
            /\ forall j o', j < i -> l !! j = Some o' -> ~ opt_matches name o'.
Proof.
  revert o. induction l as [|x l IH]; intros o; simpl.
  - split; [discriminate|]. intros [i [H _]]. now rewrite lookup_nil in H.
  - destruct (Z.eqb_spec (strcasecmp (o_name x) name) 0) as [Hx|Hx].
    + apply opt_matches_sym in Hx. split.
      * intros [= <-]. exists 0. split; [reflexivity|]. split; [exact Hx|]. lia.
      * intros [i [Hi [Hm Hfirst]]]. destruct i as [|i].
        -- simpl in Hi. exact Hi.
        -- exfalso. apply (Hfirst 0 x); [lia | reflexivity | exact Hx].
    + rewrite opt_matches_sym in Hx. rewrite IH. split.
      * intros [i [Hi [Hm Hfirst]]]. exists (S i). split; [exact Hi|].
        split; [exact Hm|]. intros j o' Hj Ho'. destruct j as [|j].
        -- simpl in Ho'. injection Ho' as <-. exact Hx.
        -- simpl in Ho'. apply (Hfirst j o'); [lia | exact Ho'].
      * intros [i [Hi [Hm Hfirst]]]. destruct i as [|i].
        -- simpl in Hi. injection Hi as <-. contradiction.
        -- exists i. split; [exact Hi|]. split; [exact Hm|].
           intros j o' Hj Ho'. apply (Hfirst (S j) o'); [lia | exact Ho'].
Qed.
End Registries.

Section Dispatch.
Context {E : Type}.
Variable all_commands : list (command E).

(** The three ways through [process_command], by the text of the line. *)
Lemma process_command_cases arg interactive (st : pstate E) :
  let s := c_str arg in
  if forallb isspace s
  then process_command all_commands arg interactive st = (0%Z, trimmed arg, st)
  else exists cmd_text cur,
      get_arg (Some (mk_cursor (trimmed arg) 0)) = (Some cmd_text, Some cur)
      /\ c_str (drop cmd_text (cur_buf cur)) = Spec.first_token s
      /\ c_str (drop (cur_pos cur) (cur_buf cur))
         = Spec.after_token (c_str (trimmed arg))
      /\ process_command all_commands arg interactive st
         = match find_command all_commands (Spec.first_token s) with
           | Some cmd =>
               let '(ret, cur', st') :=
                 c_func cmd cur (set_interactive_call interactive st) in
               (0%Z, cur_buf cur', set_interactive_call (interactive_call st) st')
           | None =>
               ((-1)%Z, cur_buf cur,
                fprintf_stderr (unknown_command_msg (Spec.first_token s)) st)
           end.
Proof.
  intros s. unfold process_command. fold (trimmed arg).
  pose proof (get_arg_text (trimmed arg) 0) as H. cbv zeta in H.
  rewrite drop_0, trimmed_all_space, trimmed_first_token in H. fold s in H.
  destruct (forallb isspace s).
  - rewrite H. reflexivity.
  - destruct H as [start [buf' [pos' [Hg [Htok [Hrest _]]]]]].
    exists start, (mk_cursor buf' pos'). rewrite Hg. cbn [cur_buf cur_pos].
    split; [reflexivity|]. split; [exact Htok|]. split; [exact Hrest|].
    rewrite Htok. reflexivity.
Qed.
End Dispatch.

(* ===================================================================== *)
(** ** Wrap-around arithmetic                                               *)
(* ===================================================================== *)

Lemma eqm32_refl a : eqm32 a a.
Proof. exists 0%Z. lia. Qed.

Lemma eqm32_sym a b : eqm32 a b -> eqm32 b a.
Proof. intros [k H]. exists (- k)%Z. lia. Qed.

Lemma eqm32_trans a b c : eqm32 a b -> eqm32 b c -> eqm32 a c.
Proof. intros [k H] [l H']. exists (k + l)%Z. lia. Qed.

Lemma eqm32_add a b a' b' : eqm32 a a' -> eqm32 b b' -> eqm32 (a + b) (a' + b').
Proof. intros [k H] [l H']. exists (k + l)%Z. lia. Qed.

Lemma int32_eqm z : eqm32 (int32 z) z.
Proof.
  unfold int32, sint. change (32 - 1)%Z with 31%Z.
  exists (- ((z + 2 ^ 31) / 2 ^ 32))%Z.
  pose proof (Z.div_mod (z + 2 ^ 31) (2 ^ 32)) as H. lia.
Qed.

Lemma int64_eqm z : eqm32 (int64 z) z.
Proof.
  unfold int64, sint. change (64 - 1)%Z with 63%Z.
  exists (- ((z + 2 ^ 63) / 2 ^ 64) * 2 ^ 32)%Z.
  pose proof (Z.div_mod (z + 2 ^ 63) (2 ^ 64)) as H.
  change (2 ^ 64)%Z with (2 ^ 32 * 2 ^ 32)%Z in *. lia.
Qed.

Lemma int32_congr a b : eqm32 a b -> int32 a = int32 b.
Proof.
  intros [k ->]. unfold int32, sint. f_equal.
  replace (b + k * 2 ^ 32 + 2 ^ (32 - 1))%Z with (b + 2 ^ (32 - 1) + k * 2 ^ 32)%Z by lia.
  apply Z_mod_plus_full.
Qed.

Lemma int32_range z : (- 2 ^ 31 <= int32 z < 2 ^ 31)%Z.
Proof.
  unfold int32, sint. change (32 - 1)%Z with 31%Z.
  pose proof (Z.mod_pos_bound (z + 2 ^ 31) (2 ^ 32)) as H. lia.
Qed.

Lemma land_65535 z : Z.land z 65535 = (z mod 65536)%Z.
Proof. change 65535%Z with (Z.ones 16). apply Z.land_ones. lia. Qed.

Lemma eqm32_land a b : eqm32 a b -> Z.land a 65535 = Z.land b 65535.
Proof.
  intros [k ->]. rewrite !land_65535.
  replace (k * 2 ^ 32)%Z with (k * 65536 * 65536)%Z by lia.
  apply Z_mod_plus_full.
Qed.

(* ===================================================================== *)
(** ** strtol and atoi read one string                                      *)
(* ===================================================================== *)

Lemma isspace_NUL : isspace NUL = false.
Proof. reflexivity. Qed.

Lemma scan_digits_stop base t r : forall acc,
  scan_digits base (t ++ NUL :: r) acc = scan_digits base t acc.
Proof.
  induction t as [|c t IH]; intros acc; simpl; [reflexivity|].
  destruct (digit_val c) as [d|]; [|reflexivity].
  destruct (d <? base)%Z; [apply IH | reflexivity].
Qed.

Lemma skip_spaces_stop t r :
  exists t', skip_spaces (t ++ NUL :: r) = t' ++ NUL :: r /\ skip_spaces t = t'.
Proof.
  induction t as [|c t IH]; simpl.
  - exists []. split; reflexivity.
  - destruct (isspace c); [exact IH|]. exists (c :: t). split; reflexivity.
Qed.

(** [strtol] reads no further than the terminator of its string. *)
Lemma strtol_stop t r base :
  forallb truthy t = true -> strtol (t ++ NUL :: r) base = strtol t base.
Proof.
  intros Hfree. unfold strtol.
  destruct (skip_spaces_stop t r) as [t1 [-> Ht1]]. rewrite Ht1.
  assert (Hfree1 : forallb truthy t1 = true).
  { subst t1. clear r. induction t as [|c t IH]; simpl; [reflexivity|].
    simpl in Hfree. apply andb_true_iff in Hfree as [Hc Ht].
    destruct (isspace c); [now apply IH|]. simpl. now rewrite Hc, Ht. }
  clear Ht1 Hfree t.
  assert (Hsign :
    exists neg t2,
      match t1 ++ NUL :: r with
      | c :: r0 =>
          if Ascii.eqb c "-" then (true, r0)
          else if Ascii.eqb c "+" then (false, r0)
          else (false, t1 ++ NUL :: r)
      | [] => (false, t1 ++ NUL :: r)
      end = (neg, t2 ++ NUL :: r)
      /\ match t1 with
         | c :: r0 =>
             if Ascii.eqb c "-" then (true, r0)
             else if Ascii.eqb c "+" then (false, r0)
             else (false, t1)
         | [] => (false, t1)
         end = (neg, t2)
      /\ forallb truthy t2 = true).
  { destruct t1 as [|c t1]; simpl.
    - exists false, []. repeat split.
    - simpl in Hfree1. apply andb_true_iff in Hfree1 as [Hc Ht].
      destruct (Ascii.eqb c "-"); [exists true, t1; repeat split; assumption|].
      destruct (Ascii.eqb c "+"); [exists false, t1; repeat split; assumption|].
      exists false, (c :: t1). repeat split. simpl. now rewrite Hc, Ht. }
  destruct Hsign as [neg [t2 [-> [-> Hfree2]]]].
  assert (Hpre :
    exists t3,
      (if (base =? 16)%Z then
         match t2 ++ NUL :: r with
         | c0 :: cx :: r0 =>
             if Ascii.eqb c0 "0" && Ascii.eqb (tolower cx) "x" then r0
             else t2 ++ NUL :: r
         | _ => t2 ++ NUL :: r
         end
       else t2 ++ NUL :: r) = t3 ++ NUL :: r
      /\ (if (base =? 16)%Z then
            match t2 with
            | c0 :: cx :: r0 =>
                if Ascii.eqb c0 "0" && Ascii.eqb (tolower cx) "x" then r0 else t2
            | _ => t2
            end
          else t2) = t3).
  { destruct (base =? 16)%Z; [|exists t2; split; reflexivity].
    destruct t2 as [|c0 [|cx t2]].
    - exists []. split; [|reflexivity]. simpl.
      destruct r; reflexivity.
    - exists [c0]. split; [|reflexivity]. simpl.
      now rewrite andb_false_r.
    - simpl.
      destruct (Ascii.eqb c0 "0" && Ascii.eqb (tolower cx) "x").
      + exists t2. split; reflexivity.
      + exists (c0 :: cx :: t2). split; reflexivity. }
  destruct Hpre as [t3 [-> ->]].
  now rewrite scan_digits_stop.
Qed.

Lemma atoi_stop t r : forallb truthy t = true -> atoi (t ++ NUL :: r) = atoi t.
Proof. intros H. unfold atoi. now rewrite strtol_stop. Qed.

(* ===================================================================== *)
(** ** token_add and addr_exp                                               *)
(* ===================================================================== *)

Lemma take_while_all_id {A} (p : A -> bool) l :
  forallb p l = true -> Spec.take_while p l = l.
Proof.
  induction l as [|c l IH]; simpl; [reflexivity|].
  intros H. apply andb_true_iff in H as [Hc Hl]. rewrite Hc. now f_equal; apply IH.
Qed.

Lemma take_while_split {A} (p : A -> bool) l :
  forallb p l = false ->
  exists x l', l = Spec.take_while p l ++ x :: l' /\ p x = false.
Proof.
  induction l as [|c l IH]; simpl; [discriminate|].
  destruct (p c) eqn:Hc; simpl.
  - intros H. destruct (IH H) as [x [l' [Hl Hx]]].
    exists x, l'. split; [now f_equal | exact Hx].
  - intros _. exists c, l. split; [reflexivity | exact Hc].
Qed.

Lemma forallb_weaken {A} (p q : A -> bool) l :
  (forall x, p x = true -> q x = true) -> forallb p l = true -> forallb q l = true.
Proof.
  intros Hpq. induction l as [|c l IH]; simpl; [reflexivity|].
  intros H. apply andb_true_iff in H as [Hc Hl].
  rewrite (Hpq c Hc). now apply IH.
Qed.

Lemma forallb_take {A} (p : A -> bool) n l :
  forallb p l = true -> forallb p (take n l) = true.
Proof.
  intros H. rewrite <- (take_drop n l), forallb_app in H.
  now apply andb_true_iff in H as [H _].
Qed.

Lemma forallb_elem {A} (p : A -> bool) l1 x l2 :
  forallb p (l1 ++ x :: l2) = true -> p x = true.
Proof.
  rewrite forallb_app. simpl. intros H.
  apply andb_true_iff in H as [_ H]. now apply andb_true_iff in H as [H _].
Qed.

(** How the code tells the kind of the token it holds, against [classify]. *)
Lemma decimal_test t r :
  forallb truthy t = true ->
  negb (truthy (peek (t ++ NUL :: r)
                  (skip_while isdigit (length (t ++ NUL :: r)) (t ++ NUL :: r) 0)))
  = Spec.all_decimal t.
Proof.
  intros Hfree.
  pose proof (skip_while_app isdigit (t ++ NUL :: r) [] _ (Nat.le_refl _)) as Hi.
  change ([] ++ t ++ NUL :: r) with (t ++ NUL :: r) in Hi.
  change (length (@nil ascii)) with 0 in Hi. rewrite Hi, Nat.add_0_l. clear Hi.
  rewrite take_while_live_c_str, c_str_app_nul by assumption.
  unfold Spec.all_decimal.
  destruct (forallb isdigit t) eqn:Hd.
  - rewrite take_while_all_id by assumption.
    rewrite peek_app_length. reflexivity.
  - destruct (take_while_split isdigit t Hd) as [x [t' [Ht Hx]]].
    set (d := Spec.take_while isdigit t) in *.
    assert (Hxt : truthy x = true).
    { rewrite Ht in Hfree. exact (forallb_elem truthy d x t' Hfree). }
    rewrite Ht at 1. rewrite <- app_assoc. cbn [app].
    rewrite peek_app_length. cbn [hd]. now rewrite Hxt.
Qed.

Lemma hex_test t r :
  t <> [] ->
  Ascii.eqb (peek (t ++ NUL :: r) 0) "0"
  && Ascii.eqb (tolower (peek (t ++ NUL :: r) 1)) "x"
  = Spec.hex_prefixed t.
Proof.
  intros Hne. destruct t as [|c0 [|c1 t]]; [contradiction| |].
  - cbn. apply andb_false_r.
  - cbn [app]. rewrite peek_cons_0, peek_cons_S, peek_cons_0.
    rewrite tolower_x. reflexivity.
Qed.

Lemma hex_digits t r :
  Spec.hex_prefixed t = true -> forallb truthy t = true ->
  strtol (drop 2 (t ++ NUL :: r)) 16 = strtol (drop 2 t) 16.
Proof.
  intros Hh Hfree. destruct t as [|c0 [|c1 t]]; [discriminate..|].
  cbn [app drop]. apply strtol_stop.
  simpl in Hfree. apply andb_true_iff in Hfree as [_ Hfree].
  now apply andb_true_iff in Hfree as [_ Hfree].
Qed.

Section Evaluator.
Context {E : Type}.
Variable stab_get : list ascii -> option Z.

Lemma buffered_nul_free run :
  forallb is_term_char run = true -> forallb truthy (Spec.buffered run) = true.
Proof.
  intros H. apply forallb_take.
  exact (forallb_weaken _ _ run is_term_char_truthy H).
Qed.

Lemma buffered_length run : length (Spec.buffered run) <= 63.
Proof. unfold Spec.buffered. rewrite length_take. lia. Qed.

Lemma token_add_empty (st : pstate E) sum mult :
  tok_inv st [] sum mult -> token_add stab_get st = (0%Z, st).
Proof.
  intros [_ Hlen _ _ _ _]. unfold token_add. rewrite Hlen. reflexivity.
Qed.

Lemma token_add_term (st : pstate E) run sum mult :
  run <> [] ->
  tok_inv st run sum mult ->
  match Spec.term_value stab_get (Spec.buffered run) with
  | Some v =>
      exists st', token_add stab_get st = (0%Z, st')
                  /\ tok_inv st' [] (sum + mult * v) mult
                  /\ stderr st' = stderr st
  | None =>
      exists st', token_add stab_get st = ((-1)%Z, st')
                  /\ stderr st'
                     = stderr st ++ bytes "unknown token: " ++ Spec.buffered run
                                 ++ [newline]
  end.
Proof.
  intros Hne [Hbuf Hlen Hrun Hchars Hsum Hmult].
  pose proof (buffered_nul_free run Hchars) as Hfree.
  pose proof (buffered_length run) as Hle.
  set (t := Spec.buffered run) in *.
  assert (Htne : t <> []).
  { unfold t, Spec.buffered. destruct run; [contradiction|]. discriminate. }
  destruct st as [ol ic buf len m s err ex].
  cbn [token_buf token_len token_sum token_mult stderr] in *.
  unfold TOKEN_BUF_SIZE in Hbuf.
  assert (Hsplit : exists x rest, buf = t ++ x :: rest).
  { rewrite <- Hrun. destruct (drop len buf) as [|x rest] eqn:Ed.
    - exfalso. apply (f_equal length) in Ed. rewrite length_drop in Ed.
      simpl in Ed. lia.
    - exists x, rest. rewrite <- Ed. symmetry. apply take_drop. }
  destruct Hsplit as [x [rest Hb]].
  unfold token_add. cbn [token_buf token_len token_sum token_mult stderr
    set_token_buf set_token_len set_token_sum fprintf_stderr].
  destruct (Nat.eqb_spec len 0) as [E0|_].
  { exfalso. apply Htne. apply length_zero_iff_nil. lia. }
  assert (Hpoke : poke buf len NUL = t ++ NUL :: rest).
  { rewrite Hb, Hlen. apply poke_app_length. }
  rewrite Hpoke. rewrite decimal_test by assumption.
  rewrite hex_test by assumption.
  rewrite c_str_app_nul by assumption.
  unfold Spec.term_value, Spec.classify.
  assert (Hinv : forall b v,
    eqm32 v (sum + mult * b) ->
    tok_inv (set_token_sum v
               (set_token_len 0
                  (set_token_buf (t ++ NUL :: rest)
                     (mk_pstate ol ic buf len m s err ex))))
            [] (sum + mult * b) mult).
  { intros b v Hv. constructor; cbn; try reflexivity; try assumption.
    rewrite length_app. cbn [length]. rewrite Hb, length_app in Hbuf.
    cbn [length] in Hbuf. exact Hbuf. }
  destruct (Spec.all_decimal t) eqn:Hdec.
  { eexists. split; [reflexivity|]. split; [|reflexivity].
    apply Hinv. rewrite atoi_stop by assumption. subst m.
    eapply eqm32_trans; [apply int32_eqm|].
    apply eqm32_add; [exact Hsum | apply int32_eqm]. }
  destruct (Spec.hex_prefixed t) eqn:Hhex.
  { eexists. split; [reflexivity|]. split; [|reflexivity].
    apply Hinv. rewrite hex_digits by assumption. subst m.
    eapply eqm32_trans; [apply int32_eqm|].
    eapply eqm32_trans; [apply int64_eqm|].
    apply eqm32_add; [exact Hsum | apply int64_eqm]. }
  destruct (stab_get t) as [value|]; cbn [option_map].
  - eexists. split; [reflexivity|]. split; [|reflexivity].
    apply Hinv. subst m. unfold uint16.
    eapply eqm32_trans; [apply int32_eqm|].
    apply eqm32_add; [exact Hsum | apply int32_eqm].
  - eexists. split; [reflexivity|]. cbn. reflexivity.
Qed.

Lemma lex_term c s :
  Spec.term_char c = true -> Spec.lex (c :: s) = glue [c] (Spec.lex s).
Proof.
  intros H. cbn [Spec.lex]. rewrite H. unfold glue.
  destruct (Spec.lex s) as [|[t|x] r]; reflexivity.
Qed.

Lemma glue_glue run c items :
  glue run (glue [c] items) = glue (run ++ [c]) items.
Proof.
  unfold glue. destruct run as [|x run]; cbn [app].
  - destruct items as [|[t|y] r]; reflexivity.
  - destruct items as [|[t|y] r]; cbn [app]; try reflexivity.
    now rewrite <- app_assoc.
Qed.

Lemma lex_sep c s :
  Spec.term_char c = false -> Spec.lex (c :: s) = Spec.Sep c :: Spec.lex s.
Proof. intros H. cbn [Spec.lex]. now rewrite H. Qed.

Lemma agrees_stderr (st0 st1 : pstate E) out v :
  stderr st1 = stderr st0 -> agrees st1 out v -> agrees st0 out v.
Proof. unfold agrees. intros ->. trivial. Qed.

Lemma finish_term (st : pstate E) run sum mult :
  tok_inv st run sum mult ->
  agrees st (finish stab_get (0%Z, st)) (Spec.eval_items stab_get Spec.buffered (glue run []) sum mult).
Proof.
  intros Hinv. unfold finish. cbn [Z.ltb Z.compare].
  destruct run as [|c run].
  - rewrite (token_add_empty st sum mult Hinv). cbn.
    repeat split. f_equal. apply eqm32_land. apply Hinv.
  - pose proof (token_add_term st (c :: run) sum mult ltac:(discriminate) Hinv) as H.
    cbn [glue Spec.eval_items].
    destruct (Spec.term_value stab_get (Spec.buffered (c :: run))) as [v|].
    + destruct H as [st' [-> [Hinv' Herr]]]. cbn.
      repeat split; [|exact Herr]. f_equal. apply eqm32_land. apply Hinv'.
    + destruct H as [st' [-> Herr]]. cbn. repeat split. exact Herr.
Qed.

Lemma tok_inv_push (st : pstate E) run sum mult c :
  is_term_char c = true ->
  tok_inv st run sum mult ->
  tok_inv (if token_len st + 1 <? TOKEN_BUF_SIZE
           then set_token_len (token_len st + 1)
                  (set_token_buf (poke (token_buf st) (token_len st) c) st)
           else st)
          (run ++ [c]) sum mult.
Proof.
  intros Hc [Hbuf Hlen Hrun Hchars Hsum Hmult].
  assert (Hchars' : forallb is_term_char (run ++ [c]) = true).
  { rewrite forallb_app, Hchars. simpl. now rewrite Hc. }
  unfold TOKEN_BUF_SIZE in *. unfold Spec.buffered in *.
  rewrite length_take in Hlen.
  destruct (Nat.ltb_spec (token_len st + 1) 64) as [Hlt|Hge].
  - assert (Hr : take 63 run = run) by (apply take_ge; lia).
    rewrite Hr in Hrun.
    assert (Hl : token_len st = length run) by lia.
    destruct (drop (token_len st) (token_buf st)) as [|x rest] eqn:Ed.
    { exfalso. apply (f_equal length) in Ed. rewrite length_drop in Ed.
      simpl in Ed. lia. }
    assert (Hb : token_buf st = run ++ x :: rest).
    { rewrite <- Hrun, <- Ed. symmetry. apply take_drop. }
    constructor;
      cbn [token_buf token_len token_sum token_mult set_token_len set_token_buf];
      unfold Spec.buffered; try assumption.
    + unfold poke. rewrite length_insert. exact Hbuf.
    + rewrite length_take, length_app. cbn [length]. lia.
    + rewrite Hb, Hl, poke_app_length.
      replace (run ++ c :: rest) with ((run ++ [c]) ++ rest)
        by now rewrite <- app_assoc.
      replace (length run + 1) with (length (run ++ [c]))
        by (rewrite length_app; reflexivity).
      rewrite take_app_length. symmetry. apply take_ge.
      rewrite length_app. simpl. lia.
  - assert (Hr : take 63 (run ++ [c]) = take 63 run).
    { rewrite take_app_le by lia. reflexivity. }
    constructor; try assumption.
    + unfold Spec.buffered. rewrite Hr, length_take. exact Hlen.
    + unfold Spec.buffered. now rewrite Hr.
Qed.

Lemma tok_inv_sign (st : pstate E) run sum mult c :
  tok_inv st run sum mult ->
  tok_inv
    (let st1 := if Ascii.eqb c "+" then set_token_mult 1 st else st in
     if Ascii.eqb c "-" then set_token_mult (-1) st1 else st1)
    run sum (Spec.next_sign c mult).
Proof.
  intros [Hbuf Hlen Hrun Hchars Hsum Hmult]. unfold Spec.next_sign. cbv zeta.
  destruct (Ascii.eqb_spec c "+") as [->|_]; cbn [Ascii.eqb Bool.eqb].
  - constructor; assumption || reflexivity.
  - destruct (Ascii.eqb c "-"); constructor; assumption || reflexivity.
Qed.

Lemma stderr_push (st : pstate E) c :
  stderr (if token_len st + 1 <? TOKEN_BUF_SIZE
          then set_token_len (token_len st + 1)
                 (set_token_buf (poke (token_buf st) (token_len st) c) st)
          else st) = stderr st.
Proof. destruct (token_len st + 1 <? TOKEN_BUF_SIZE); reflexivity. Qed.

Lemma stderr_sign (st : pstate E) c :
  stderr (let st1 := if Ascii.eqb c "+" then set_token_mult 1 st else st in
          if Ascii.eqb c "-" then set_token_mult (-1) st1 else st1) = stderr st.
Proof.
  cbv zeta. destruct (Ascii.eqb c "+"), (Ascii.eqb c "-"); reflexivity.
Qed.

(** The loop and what follows it compute the reference pass over the text
    that is left, continued from the term being read. *)
Lemma addr_exp_loop_refines text : forall (st : pstate E) run sum mult,
  tok_inv st run sum mult ->
  agrees st (finish stab_get (addr_exp_loop stab_get text st))
         (Spec.eval_items stab_get Spec.buffered (glue run (Spec.lex (c_str text))) sum mult).
Proof.
  induction text as [|c text IH]; intros st run sum mult Hinv.
  - cbn [addr_exp_loop c_str Spec.lex]. now apply finish_term.
  - cbn [addr_exp_loop c_str]. unfold truthy.
    destruct (is_nul c) eqn:Hnul; cbn [negb].
    { cbn [Spec.lex]. now apply finish_term. }
    destruct (is_term_char c) eqn:Hc.
    + rewrite lex_term by (now rewrite <- is_term_char_spec).
      rewrite glue_glue.
      eapply agrees_stderr; [apply (stderr_push st c)|].
      apply IH. now apply tok_inv_push.
    + rewrite lex_sep by (now rewrite <- is_term_char_spec).
      destruct run as [|x run].
      * rewrite (token_add_empty st sum mult Hinv).
        cbn [Z.ltb Z.compare glue Spec.eval_items].
        eapply agrees_stderr; [apply (stderr_sign st c)|].
        apply (IH _ [] sum (Spec.next_sign c mult)).
        now apply tok_inv_sign.
      * pose proof (token_add_term st (x :: run) sum mult ltac:(discriminate) Hinv)
          as H.
        cbn [glue Spec.eval_items].
        destruct (Spec.term_value stab_get (Spec.buffered (x :: run))) as [v|].
        -- destruct H as [st' [-> [Hinv' Herr]]]. cbn [Z.ltb Z.compare].
           eapply agrees_stderr; [exact Herr|].
           eapply agrees_stderr; [apply (stderr_sign st' c)|].
           apply (IH _ [] (sum + mult * v)%Z (Spec.next_sign c mult)).
           now apply tok_inv_sign.
        -- destruct H as [st' [-> Herr]]. cbn. repeat split. exact Herr.
Qed.

(** [addr_exp] computes the reference evaluation of its text. *)
Lemma addr_exp_refines text (st : pstate E) :
  length (token_buf st) = TOKEN_BUF_SIZE ->
  let out := addr_exp stab_get text st in
  match Spec.eval stab_get Spec.buffered (c_str text) with
  | Spec.Value a =>
      out.1.1 = 0%Z /\ out.1.2 = Some a /\ stderr out.2 = stderr st
  | Spec.ExpressionError t =>
      out.1.1 = (-1)%Z /\ out.1.2 = None
      /\ stderr out.2 = stderr st ++ bytes "unknown token: " ++ t ++ [newline]
  end.
Proof.
  intros Hbuf.
  set (st0 := set_token_sum 0 (set_token_mult 1 (set_token_len 0 st))).
  assert (Hinv : tok_inv st0 [] 0 1).
  { constructor; cbn; try reflexivity; [exact Hbuf | apply eqm32_refl]. }
  pose proof (addr_exp_loop_refines text st0 [] 0%Z 1%Z Hinv) as H.
  cbn [glue] in H.
  assert (Hout : addr_exp stab_get text st
                 = finish stab_get (addr_exp_loop stab_get text st0)).
  { unfold addr_exp, finish. fold st0.
    destruct (addr_exp_loop stab_get text st0) as [r st1]. reflexivity. }
  cbv zeta. rewrite Hout. unfold Spec.eval.
  destruct (Spec.eval_items stab_get Spec.buffered (Spec.lex (c_str text)) 0 1); exact H.
Qed.
End Evaluator.

(* ===================================================================== *)
(** ** Decimal and hexadecimal terms                                        *)
(* ===================================================================== *)

Lemma isdigit_val c : isdigit c = true -> exists d, digit_val c = Some d /\ (0 <= d < 10)%Z.
Proof.
  intros H. unfold digit_val. rewrite H. eexists. split; [reflexivity|].
  unfold isdigit in H. apply andb_true_iff in H as [H1 H2]. lia.
Qed.

Lemma digit_val_nonneg c d : digit_val c = Some d -> (0 <= d)%Z.
Proof.
  unfold digit_val, isdigit, islower, isupper.
  repeat match goal with |- context [if ?b then _ else _] => destruct b eqn:? end;
    intros [= <-]; lia.
Qed.

Lemma scan_digits_value base t : forall acc,
  forallb (fun c => match digit_val c with
                    | Some d => (d <? base)%Z
                    | None => false
                    end) t = true ->
  scan_digits base t acc
  = fold_left (fun a c => (a * base + default 0 (digit_val c))%Z) t acc.
Proof.
  induction t as [|c t IH]; intros acc H; simpl; [reflexivity|].
  simpl in H. apply andb_true_iff in H as [Hc Ht].
  destruct (digit_val c) as [d|]; [|discriminate]. rewrite Hc. simpl.
  now apply IH.
Qed.

Lemma fold_digits_nonneg base t : forall acc,
  (0 <= base)%Z -> (0 <= acc)%Z ->
  (0 <= fold_left (fun a c => (a * base + default 0 (digit_val c))%Z) t acc)%Z.
Proof.
  induction t as [|c t IH]; intros acc Hb Ha; simpl; [assumption|].
  apply IH; [assumption|].
  destruct (digit_val c) as [d|] eqn:Hd; simpl.
  - apply digit_val_nonneg in Hd. nia.
  - nia.
Qed.

Lemma digits_value_nonneg base t : (0 <= base)%Z -> (0 <= Spec.digits_value base t)%Z.
Proof. intros H. apply fold_digits_nonneg; [assumption | lia]. Qed.

(** A string of digits has no white space, sign or prefix for [strtol] to
    skip. *)
Lemma strtol_digits base t :
  (base = 10 \/ base = 16)%Z ->
  forallb (fun c => match digit_val c with
                    | Some d => (d <? base)%Z
                    | None => false
                    end) t = true ->
  strtol t base = Z.min LONG_MAX (Spec.digits_value base t).
Proof.
  intros Hbase Ht. unfold strtol.
  assert (Hsp : skip_spaces t = t).
  { destruct t as [|c t]; [reflexivity|]. simpl in Ht |- *.
    apply andb_true_iff in Ht as [Hc _].
    destruct (isspace c) eqn:Hs; [|reflexivity].
    exfalso. revert Hc Hs. clear. each_byte c. }
  rewrite Hsp.
  assert (Hsign :
    match t with
    | c :: r =>
        if Ascii.eqb c "-" then (true, r)
        else if Ascii.eqb c "+" then (false, r)
        else (false, t)
    | [] => (false, t)
    end = (false, t)).
  { destruct t as [|c t]; [reflexivity|]. simpl in Ht.
    apply andb_true_iff in Ht as [Hc _].
    destruct (Ascii.eqb_spec c "-") as [->|_]; [discriminate|].
    destruct (Ascii.eqb_spec c "+") as [->|_]; [discriminate|]. reflexivity. }
  rewrite Hsign.
  assert (Hpre :
    (if (base =? 16)%Z then
       match t with
       | c0 :: cx :: r =>
           if Ascii.eqb c0 "0" && Ascii.eqb (tolower cx) "x" then r else t
       | _ => t
       end
     else t) = t).
  { destruct (base =? 16)%Z; [|reflexivity].
    destruct t as [|c0 [|cx r]]; try reflexivity.
    simpl in Ht. apply andb_true_iff in Ht as [_ Ht].
    apply andb_true_iff in Ht as [Hx _].
    destruct (Ascii.eqb (tolower cx) "x") eqn:Htx; [|now rewrite andb_false_r].
    exfalso. rewrite tolower_x in Htx.
    apply orb_true_iff in Htx as [Htx|Htx]; apply Ascii.eqb_eq in Htx; subst cx;
      destruct Hbase as [-> | ->]; discriminate. }
  rewrite Hpre. rewrite scan_digits_value by assumption. reflexivity.
Qed.

Lemma int32_small z : (- 2 ^ 31 <= z < 2 ^ 31)%Z -> int32 z = z.
Proof.
  intros H. unfold int32, sint. change (32 - 1)%Z with 31%Z.
  rewrite Z.mod_small by lia. lia.
Qed.

Lemma atoi_decimal t :
  Spec.all_decimal t = true -> (Spec.digits_value 10 t < 2 ^ 31)%Z ->
  atoi t = Spec.digits_value 10 t.
Proof.
  intros Hd Hv. unfold atoi.
  rewrite strtol_digits.
  - pose proof (digits_value_nonneg 10 t ltac:(lia)) as H0.
    unfold LONG_MAX. rewrite Z.min_r by lia. apply int32_small. lia.
  - now left.
  - unfold Spec.all_decimal in Hd.
    refine (forallb_weaken _ _ t _ Hd). intros c Hc.
    destruct (isdigit_val c Hc) as [d [-> Hr]]. lia.
Qed.

Lemma strtol_hexadecimal t :
  forallb Spec.is_xdigit t = true -> (Spec.digits_value 16 t < 2 ^ 63)%Z ->
  strtol t 16 = Spec.digits_value 16 t.
Proof.
  intros Hx Hv. rewrite strtol_digits; [|now right|exact Hx].
  unfold LONG_MAX. lia.
Qed.

(* ===================================================================== *)
(** ** The reference pass                                                   *)
(* ===================================================================== *)

Section Pass.
Variable resolve : list ascii -> option Z.
Variable cut : list ascii -> list ascii.

Lemma unresolved_iff t :
  Spec.unresolved resolve cut t <->
  Spec.classify (cut t) = Spec.Symbol /\ resolve (cut t) = None.
Proof.
  unfold Spec.unresolved, Spec.term_value.
  destruct (Spec.classify (cut t)); simpl.
  - split; [discriminate | intros [H _]; discriminate].
  - split; [discriminate | intros [H _]; discriminate].
  - destruct (resolve (cut t)); simpl.
    + split; [discriminate | intros [_ H]; discriminate].
    + split; [now split | reflexivity].
Qed.

Lemma eval_items_no_terms items : forall sum sign,
  (forall t, ~ In (Spec.Term t) items) ->
  Spec.eval_items resolve cut items sum sign = Spec.Value sum.
Proof.
  induction items as [|[t|c] r IH]; intros sum sign H; simpl.
  - reflexivity.
  - exfalso. apply (H t). now left.
  - apply IH. intros t Ht. apply (H t). now right.
Qed.

Lemma eval_items_unresolved items : forall sum sign t,
  In (Spec.Term t) items -> Spec.unresolved resolve cut t ->
  exists t', In (Spec.Term t') items /\ Spec.unresolved resolve cut t'
             /\ Spec.eval_items resolve cut items sum sign
                = Spec.ExpressionError (cut t').
Proof.
  induction items as [|[u|c] r IH]; intros sum sign t Hin Hun; simpl.
  - destruct Hin.
  - destruct (Spec.term_value resolve (cut u)) as [v|] eqn:Hu.
    + destruct Hin as [[= ->]|Hin].
      { unfold Spec.unresolved in Hun. congruence. }
      destruct (IH (sum + sign * v)%Z sign t Hin Hun) as [t' [Hin' [Hun' He]]].
      exists t'. split; [now right|]. now split.
    + exists u. split; [now left|]. split; [exact Hu | reflexivity].
  - destruct Hin as [[=]|Hin].
    destruct (IH sum (Spec.next_sign c sign) t Hin Hun) as [t' [Hin' [Hun' He]]].
    exists t'. split; [now right|]. now split.
Qed.

Lemma eval_items_error items : forall sum sign e,
  Spec.eval_items resolve cut items sum sign = Spec.ExpressionError e ->
  exists t, In (Spec.Term t) items /\ Spec.unresolved resolve cut t
            /\ e = cut t.
Proof.
  induction items as [|[u|c] r IH]; intros sum sign e; simpl.
  - discriminate.
  - destruct (Spec.term_value resolve (cut u)) as [v|] eqn:Hu.
    + intros H. destruct (IH _ _ _ H) as [t [Hin [Hun He]]].
      exists t. split; [now right|]. now split.
    + intros [= <-]. exists u. split; [now left|]. now split.
  - intros H. destruct (IH _ _ _ H) as [t [Hin [Hun He]]].
    exists t. split; [now right|]. now split.
Qed.
End Pass.

Lemma eval_items_cut_ext resolve cut1 cut2 items : forall sum sign,
  (forall t, In (Spec.Term t) items -> cut1 t = cut2 t) ->
  Spec.eval_items resolve cut1 items sum sign
  = Spec.eval_items resolve cut2 items sum sign.
Proof.
  induction items as [|[t|c] r IH]; intros sum sign H; simpl.
  - reflexivity.
  - rewrite (H t) by now left.
    destruct (Spec.term_value resolve (cut2 t)); [|reflexivity].
    apply IH. intros u Hu. apply H. now right.
  - apply IH. intros u Hu. apply H. now right.
Qed.

Lemma lex_no_terms s :
  forallb (fun c => negb (Spec.term_char c)) s = true ->
  forall t, ~ In (Spec.Term t) (Spec.lex s).
Proof.
  induction s as [|c s IH]; simpl; intros H t.
  - tauto.
  - apply andb_true_iff in H as [Hc Hs]. apply negb_true_iff in Hc.
    rewrite Hc. intros [[=]|Hin]. exact (IH Hs t Hin).
Qed.

Lemma lex_text s : concat (map item_text (Spec.lex s)) = s.
Proof.
  induction s as [|c s IH]; simpl; [reflexivity|].
  destruct (Spec.term_char c).
  - destruct (Spec.lex s) as [|[t|x] r]; simpl in *; now rewrite IH.
  - simpl. now rewrite IH.
Qed.

Lemma lex_well_lexed s : well_lexed (Spec.lex s).
Proof.
  induction s as [|c s IH]; simpl; [exact I|].
  destruct (Spec.term_char c) eqn:Hc.
  - destruct (Spec.lex s) as [|[t|x] r]; simpl in *.
    + split; [discriminate|]. rewrite Hc. auto.
    + destruct IH as [Hne [Ht [Hr Hw]]].
      split; [discriminate|]. rewrite Hc, Ht. auto.
    + split; [discriminate|]. rewrite Hc. auto.
  - simpl. now split.
Qed.

Lemma addr_exp_value {E} stab_get (st : pstate E) text a :
  length (token_buf st) = TOKEN_BUF_SIZE ->
  Spec.eval stab_get Spec.buffered (c_str text) = Spec.Value a ->
  status (addr_exp stab_get text st) = 0%Z
  /\ stored (addr_exp stab_get text st) = Some a.
Proof.
  intros Hbuf Hv. pose proof (addr_exp_refines stab_get text st Hbuf) as H.
  cbv zeta in H. rewrite Hv in H. unfold status, stored. tauto.
Qed.

(** C1, amended. [addr_exp] is one left-to-right pass over the terms of its
    text, each term taken by its first 63 characters: it succeeds or fails as
    [Spec.eval] does and stores the value [Spec.eval] gives, where [Spec.eval]
    starts with sum 0 and sign +1, adds sign * value for each term (a term of
    digits read as decimal, a term that starts with 0x or 0X read as
    hexadecimal from its third character on, any other term resolved through
    [stab_get]), and takes sign +1 at a [+], -1 at a [-] and keeps it at any
    other separator.  When no term is longer than 63 characters that is the
    pass over the whole terms.  So 10 gives 10, 0x10 gives 16, 2+3 gives 5,
    0x10-1 gives 15 and a+b-c gives 6 when a, b, c are 5, 3, 2. *)
Theorem addr_exp_single_pass {E} (stab_get : list ascii -> option Z) (st : pstate E)
    (Hbuf : length (token_buf st) = TOKEN_BUF_SIZE) :
  (forall text, single_pass Spec.buffered stab_get st text)
  /\ (forall text,
        (forall t, In (Spec.Term t) (Spec.lex (c_str text)) -> length t <= 63) ->
        single_pass Spec.whole stab_get st text)
  /\ (forall t,
        Spec.all_decimal t = true -> (Spec.digits_value 10 t < 2 ^ 31)%Z ->
        Spec.term_value stab_get t = Some (Spec.digits_value 10 t))
  /\ (forall x r,
        x = "x"%char \/ x = "X"%char ->
        forallb Spec.is_xdigit r = true -> (Spec.digits_value 16 r < 2 ^ 63)%Z ->
        Spec.term_value stab_get ("0"%char :: x :: r) = Some (Spec.digits_value 16 r))
  /\ (forall t,
        Spec.classify t = Spec.Symbol ->
        Spec.term_value stab_get t
        = option_map (fun v => (v mod 65536)%Z) (stab_get t))
  /\ stored (addr_exp stab_get (bytes "10") st) = Some 10%Z
  /\ stored (addr_exp stab_get (bytes "0x10") st) = Some 16%Z
  /\ stored (addr_exp stab_get (bytes "2+3") st) = Some 5%Z
  /\ stored (addr_exp stab_get (bytes "0x10-1") st) = Some 15%Z
  /\ (stab_get (bytes "a") = Some 5%Z -> stab_get (bytes "b") = Some 3%Z ->
      stab_get (bytes "c") = Some 2%Z ->
      stored (addr_exp stab_get (bytes "a+b-c") st) = Some 6%Z).
Proof.
  assert (Hpass : forall text, single_pass Spec.buffered stab_get st text).
  { intros text. pose proof (addr_exp_refines stab_get text st Hbuf) as H.
    cbv zeta in H. unfold single_pass, status, stored.
    destruct (Spec.eval stab_get Spec.buffered (c_str text)); tauto. }
  split; [exact Hpass|].
  split; [|split; [|split; [|split; [|repeat split]]]].
  - intros text Hshort. specialize (Hpass text). unfold single_pass, Spec.eval in *.
    rewrite (eval_items_cut_ext stab_get Spec.whole Spec.buffered); [exact Hpass|].
    intros t Ht. unfold Spec.whole, Spec.buffered. symmetry. apply take_ge.
    now apply Hshort.
  - intros t Hd Hv. unfold Spec.term_value, Spec.classify. rewrite Hd.
    f_equal. now apply atoi_decimal.
  - intros x r Hx Hr Hv. unfold Spec.term_value, Spec.classify.
    assert (Hnd : Spec.all_decimal ("0"%char :: x :: r) = false).
    { destruct Hx as [-> | ->]; reflexivity. }
    assert (Hh : Spec.hex_prefixed ("0"%char :: x :: r) = true).
    { destruct Hx as [-> | ->]; reflexivity. }
    rewrite Hnd, Hh. cbn [drop]. f_equal. now apply strtol_hexadecimal.
  - intros t Ht. unfold Spec.term_value. now rewrite Ht.
  - now apply addr_exp_value.
  - now apply addr_exp_value.
  - now apply addr_exp_value.
  - now apply addr_exp_value.
  - intros Ha Hb Hc. apply addr_exp_value; [exact Hbuf|].
    cbv [bytes list_ascii_of_string] in Ha, Hb, Hc.
    unfold Spec.eval.
    change (Spec.lex (c_str (bytes "a+b-c")))
      with [Spec.Term ["a"%char]; Spec.Sep "+"; Spec.Term ["b"%char];
            Spec.Sep "-"; Spec.Term ["c"%char]].
    cbn [Spec.eval_items]. unfold Spec.term_value.
    change (Spec.buffered ["a"%char]) with ["a"%char].
    change (Spec.buffered ["b"%char]) with ["b"%char].
    change (Spec.buffered ["c"%char]) with ["c"%char].
    change (Spec.classify ["a"%char]) with Spec.Symbol.
    change (Spec.classify ["b"%char]) with Spec.Symbol.
    change (Spec.classify ["c"%char]) with Spec.Symbol.
    rewrite Ha, Hb, Hc. reflexivity.
Qed.

Lemma addr_exp_single_pass_witness :
  length (token_buf (initial_state tt)) = TOKEN_BUF_SIZE
  /\ stored (addr_exp abc_stab (bytes "a+b-c") (initial_state tt)) = Some 6%Z.
Proof.
  split; [reflexivity|].
  apply (addr_exp_single_pass abc_stab (initial_state tt) eq_refl); reflexivity.
Defined.

(** C1 as stated, with the terms taken whole, fails on a term longer than the
    buffer: of 62 zeros, 7, z the code keeps the 63 digits and stores 7,
    where the pass over the whole term finds a symbol that nothing resolves. *)
Lemma addr_exp_single_pass_long_term :
  Spec.eval no_stab Spec.whole (c_str long_term) = Spec.ExpressionError long_term
  /\ status (addr_exp no_stab long_term (initial_state tt)) = 0%Z
  /\ stored (addr_exp no_stab long_term (initial_state tt)) = Some 7%Z
  /\ ~ single_pass Spec.whole no_stab (initial_state tt) long_term.
Proof.
  split; [reflexivity|]. split; [reflexivity|]. split; [reflexivity|].
  unfold single_pass.
  change (Spec.eval no_stab Spec.whole (c_str long_term))
    with (Spec.ExpressionError long_term).
  intros [H _]. revert H. vm_compute. discriminate.
Qed.

Lemma addr_exp_error {E} stab_get (st : pstate E) text :
  length (token_buf st) = TOKEN_BUF_SIZE ->
  forall t, In (Spec.Term t) (Spec.lex (c_str text)) -> Spec.unresolved stab_get Spec.buffered t ->
  exists t',
    In (Spec.Term t') (Spec.lex (c_str text)) /\ Spec.unresolved stab_get Spec.buffered t'
    /\ status (addr_exp stab_get text st) = (-1)%Z
    /\ stored (addr_exp stab_get text st) = None
    /\ stderr (final (addr_exp stab_get text st))
       = stderr st ++ bytes "unknown token: " ++ Spec.buffered t' ++ [newline].
Proof.
  intros Hbuf t Hin Hun.
  destruct (eval_items_unresolved stab_get Spec.buffered _ 0%Z 1%Z t Hin Hun) as [t' [Hin' [Hun' He]]].
  exists t'. split; [exact Hin'|]. split; [exact Hun'|].
  pose proof (addr_exp_refines stab_get text st Hbuf) as H. cbv zeta in H.
  unfold Spec.eval in H. rewrite He in H. unfold status, stored, final. tauto.
Qed.

(** C3, amended. When the first 63 characters of a term of the expression
    (all of it that is kept) are neither decimal nor hexadecimal and
    [stab_get] does not resolve them, [addr_exp] returns -1 and stores nothing
    to the address cell, whatever terms follow; the error stream receives the
    line about the first such term, and a numeric option parsed from the text
    keeps its value.  So unknown_sym+1 fails when unknown_sym has no value. *)
Theorem addr_exp_unresolved_aborts {E} (stab_get : list ascii -> option Z)
    (st : pstate E) (text t : list ascii)
    (Hbuf : length (token_buf st) = TOKEN_BUF_SIZE)
    (Hterm : In (Spec.Term t) (Spec.lex (c_str text)))
    (Hkind : Spec.classify (Spec.buffered t) = Spec.Symbol)
    (Hnone : stab_get (Spec.buffered t) = None) :
  status (addr_exp stab_get text st) = (-1)%Z
  /\ stored (addr_exp stab_get text st) = None
  /\ (exists t',
        In (Spec.Term t') (Spec.lex (c_str text)) /\ Spec.unresolved stab_get Spec.buffered t'
        /\ stderr (final (addr_exp stab_get text st))
           = stderr st ++ bytes "unknown token: " ++ Spec.buffered t' ++ [newline])
  /\ (forall text_size name help data,
        let o := mk_option name OPTION_NUMERIC help data in
        status (parse_option stab_get text_size o text st) = (-1)%Z
        /\ stored (parse_option stab_get text_size o text st) = o)
  /\ (stab_get (bytes "unknown_sym") = None ->
      status (addr_exp stab_get (bytes "unknown_sym+1") st) = (-1)%Z
      /\ stored (addr_exp stab_get (bytes "unknown_sym+1") st) = None).
Proof.
  assert (Hun : Spec.unresolved stab_get Spec.buffered t) by (apply unresolved_iff; now split).
  destruct (addr_exp_error stab_get st text Hbuf t Hterm Hun)
    as [t' [Hin' [Hun' [Hs [Hv He]]]]].
  split; [exact Hs|]. split; [exact Hv|]. split; [|split].
  - exists t'. now repeat split.
  - intros text_size name help data o. unfold parse_option. cbn [o o_type].
    unfold status, stored in *.
    destruct (addr_exp stab_get text st) as [[r v] st']. cbn [fst snd] in *.
    subst r v. split; reflexivity.
  - intros Hsym.
    assert (Hun2 : Spec.unresolved stab_get Spec.buffered (bytes "unknown_sym")).
    { apply unresolved_iff. split; [reflexivity | exact Hsym]. }
    destruct (addr_exp_error stab_get st (bytes "unknown_sym+1") Hbuf
                (bytes "unknown_sym") ltac:(now left) Hun2)
      as [u [_ [_ [Hs2 [Hv2 _]]]]].
    now split.
Qed.

Lemma addr_exp_unresolved_aborts_witness :
  status (addr_exp no_stab (bytes "unknown_sym+1") (initial_state tt)) = (-1)%Z
  /\ stored (addr_exp no_stab (bytes "unknown_sym+1") (initial_state tt)) = None.
Proof.
  pose proof (addr_exp_unresolved_aborts no_stab (initial_state tt)
                (bytes "unknown_sym+1") (bytes "unknown_sym")
                eq_refl (or_introl eq_refl) eq_refl eq_refl) as H.
  split; [exact (proj1 H) | exact (proj1 (proj2 H))].
Defined.

(** C3 as stated, about the whole term, fails on a term longer than the
    buffer: 62 zeros, 7, z is neither decimal nor hexadecimal and nothing
    resolves it, yet the expression of that term and +1 evaluates to 8. *)
Lemma addr_exp_unresolved_long_term :
  In (Spec.Term long_term) (Spec.lex (c_str (long_term ++ bytes "+1")))
  /\ Spec.classify long_term = Spec.Symbol
  /\ no_stab long_term = None
  /\ status (addr_exp no_stab (long_term ++ bytes "+1") (initial_state tt)) = 0%Z
  /\ stored (addr_exp no_stab (long_term ++ bytes "+1") (initial_state tt))
     = Some 8%Z.
Proof.
  split; [now left|]. repeat split; reflexivity.
Qed.

Lemma addr_exp_stored_sum {E} stab_get (st : pstate E) text :
  status (addr_exp stab_get text st) = 0%Z ->
  stored (addr_exp stab_get text st)
  = Some (Z.land (token_sum (final (addr_exp stab_get text st))) 65535).
Proof.
  unfold addr_exp, status, stored, final.
  destruct (addr_exp_loop stab_get text _) as [r st1].
  destruct (r <? 0)%Z; [discriminate|].
  destruct (token_add stab_get st1) as [r2 st2].
  destruct (r2 <? 0)%Z; [discriminate|]. reflexivity.
Qed.

(** C4. When [addr_exp] succeeds, the value it stores is the sum of the
    signed terms, taken in the integers, cut to its low 16 bits, which is also
    the accumulator [token_sum] cut to 16 bits; it lies in 0..65535.  The only
    failure is a term that does not resolve: no size of a term or of the sum
    is an error.  So 70000 gives 4464, also when a partial sum has left the
    range of [int]. *)
Theorem addr_exp_masks_16_bits {E} (stab_get : list ascii -> option Z)
    (st : pstate E) (Hbuf : length (token_buf st) = TOKEN_BUF_SIZE) :
  (forall text,
      status (addr_exp stab_get text st) = 0%Z ->
      exists sum,
        Spec.eval_items stab_get Spec.buffered (Spec.lex (c_str text)) 0 1 = Spec.Value sum
        /\ stored (addr_exp stab_get text st) = Some (Z.land sum 65535)
        /\ stored (addr_exp stab_get text st)
           = Some (Z.land (token_sum (final (addr_exp stab_get text st))) 65535)
        /\ Z.land sum 65535 = (sum mod 65536)%Z
        /\ (0 <= Z.land sum 65535 < 65536)%Z)
  /\ (forall text,
        status (addr_exp stab_get text st) = (-1)%Z ->
        exists t, In (Spec.Term t) (Spec.lex (c_str text))
                  /\ Spec.unresolved stab_get Spec.buffered t)
  /\ (forall text,
        status (addr_exp stab_get text st) = 0%Z
        \/ status (addr_exp stab_get text st) = (-1)%Z)
  /\ (forall text,
        Spec.eval_items stab_get Spec.buffered (Spec.lex (c_str text)) 0 1
        = Spec.Value 70000 ->
        stored (addr_exp stab_get text st) = Some 4464%Z)
  /\ stored (addr_exp stab_get (bytes "70000") st) = Some 4464%Z
  /\ stored (addr_exp stab_get (bytes "35000+35000") st) = Some 4464%Z
  /\ stored (addr_exp stab_get (bytes "2147483647+2147483647+4466") st)
     = Some 4464%Z.
Proof.
  split; [|split; [|split; [|split; [|repeat split]]]].
  - intros text Hs. pose proof (addr_exp_refines stab_get text st Hbuf) as H.
    cbv zeta in H. unfold Spec.eval in H.
    destruct (Spec.eval_items stab_get Spec.buffered (Spec.lex (c_str text)) 0 1) as [sum|e].
    + exists sum. split; [reflexivity|]. split; [unfold stored; tauto|].
      split; [now apply addr_exp_stored_sum|]. rewrite land_65535.
      split; [reflexivity|]. apply Z.mod_pos_bound. lia.
    + unfold status in Hs. destruct H as [H _]. rewrite H in Hs. discriminate.
  - intros text Hs. pose proof (addr_exp_refines stab_get text st Hbuf) as H.
    cbv zeta in H. unfold Spec.eval in H.
    destruct (Spec.eval_items stab_get Spec.buffered (Spec.lex (c_str text)) 0 1) as [sum|e] eqn:He.
    + unfold status in Hs. destruct H as [H _]. rewrite H in Hs. discriminate.
    + destruct (eval_items_error stab_get Spec.buffered _ _ _ _ He) as [t [Hin [Hun _]]].
      now exists t.
  - intros text. pose proof (addr_exp_refines stab_get text st Hbuf) as H.
    cbv zeta in H. unfold status.
    destruct (Spec.eval stab_get Spec.buffered (c_str text)); [left | right]; tauto.
  - intros text Hsum. apply addr_exp_value; [exact Hbuf|].
    unfold Spec.eval. now rewrite Hsum.
  - now apply addr_exp_value.
  - now apply addr_exp_value.
  - now apply addr_exp_value.
Qed.

Lemma addr_exp_masks_16_bits_witness :
  stored (addr_exp no_stab (bytes "70000") (initial_state tt)) = Some 4464%Z.
Proof.
  apply (addr_exp_masks_16_bits no_stab (initial_state tt) eq_refl).
Defined.

(** C10. An expression with no term character (the empty text, or separators
    only) evaluates: [addr_exp] returns 0, stores 0 and writes no error. *)
Theorem addr_exp_no_terms {E} (stab_get : list ascii -> option Z)
    (st : pstate E) (Hbuf : length (token_buf st) = TOKEN_BUF_SIZE) :
  (forall text,
      forallb (fun c => negb (is_term_char c)) (c_str text) = true ->
      status (addr_exp stab_get text st) = 0%Z
      /\ stored (addr_exp stab_get text st) = Some 0%Z
      /\ stderr (final (addr_exp stab_get text st)) = stderr st)
  /\ stored (addr_exp stab_get (bytes "") st) = Some 0%Z
  /\ stored (addr_exp stab_get (bytes "+") st) = Some 0%Z
  /\ stored (addr_exp stab_get (bytes "-") st) = Some 0%Z
  /\ stored (addr_exp stab_get (bytes " ") st) = Some 0%Z
  /\ stored (addr_exp stab_get (bytes "+ - ") st) = Some 0%Z.
Proof.
  split; [|repeat split; now apply addr_exp_value].
  intros text Hsep.
  assert (Hsep' : forallb (fun c => negb (Spec.term_char c)) (c_str text) = true).
  { refine (forallb_weaken _ _ _ _ Hsep). intros c.
    now rewrite is_term_char_spec. }
  pose proof (addr_exp_refines stab_get text st Hbuf) as H. cbv zeta in H.
  unfold Spec.eval in H.
  rewrite (eval_items_no_terms stab_get Spec.buffered _ 0%Z 1%Z (lex_no_terms _ Hsep')) in H.
  exact H.
Qed.

Lemma addr_exp_no_terms_witness :
  stored (addr_exp no_stab (bytes "+ - ") (initial_state tt)) = Some 0%Z.
Proof.
  apply (addr_exp_no_terms no_stab (initial_state tt) eq_refl).
Defined.

(* ===================================================================== *)
(** ** Options                                                              *)
(* ===================================================================== *)

Lemma peek_0_c_str word : peek word 0 = hd NUL (c_str word).
Proof.
  destruct word as [|c r]; [reflexivity|]. rewrite peek_cons_0. simpl.
  destruct (is_nul c) eqn:Hc; [|reflexivity]. now apply is_nul_true in Hc.
Qed.

Lemma bool_test word :
  (isdigit (peek word 0) && (code "0" <? code (peek word 0))%Z)
  || Ascii.eqb (peek word 0) "t" || Ascii.eqb (peek word 0) "y"
  || (Ascii.eqb (peek word 0) "o" && Ascii.eqb (peek word 1) "n")
  = Spec.bool_word (c_str word).
Proof.
  destruct word as [|c r]; [reflexivity|].
  rewrite peek_cons_0, peek_cons_S. simpl.
  destruct (is_nul c) eqn:Hc.
  - apply is_nul_true in Hc. subst c. reflexivity.
  - cbn [Spec.bool_word]. f_equal.
    destruct r as [|d r]; cbn [c_str].
    + rewrite peek_nil. apply andb_false_r.
    + rewrite peek_cons_0. destruct (is_nul d) eqn:Hd; [|reflexivity].
      apply is_nul_true in Hd. subst d. apply andb_false_r.
Qed.

(** C5. Parsing a word into a Boolean option returns 0, changes nothing but
    the value of the option, and stores 1 when the word starts with a digit
    above 0, with t, with y or with on, and 0 otherwise.  So 1, true, yes, on
    and truish store 1; 0, false, no, off, 0foo and the empty word store 0. *)
Theorem parse_option_boolean {E} (stab_get : list ascii -> option Z)
    (text_size : nat) (name help : list ascii) (data : option_data)
    (st : pstate E) :
  let parse word :=
    parse_option stab_get text_size (mk_option name OPTION_BOOLEAN help data) word st in
  let value word := o_data (stored (parse word)) in
  (forall word,
      parse word
      = (0%Z,
         mk_option name OPTION_BOOLEAN help
           (data_numeric (bool_int (Spec.bool_word (c_str word)))),
         st))
  /\ (forall word,
        value word = data_numeric 1 <->
        exists c r, c_str word = c :: r
                    /\ ((isdigit c = true /\ (code "0" < code c)%Z)
                        \/ c = "t"%char \/ c = "y"%char
                        \/ (c = "o"%char /\ exists r', r = "n"%char :: r')))
  /\ (forall word, value word = data_numeric 1 \/ value word = data_numeric 0)
  /\ value (bytes "1") = data_numeric 1
  /\ value (bytes "true") = data_numeric 1
  /\ value (bytes "yes") = data_numeric 1
  /\ value (bytes "on") = data_numeric 1
  /\ value (bytes "truish") = data_numeric 1
  /\ value (bytes "0") = data_numeric 0
  /\ value (bytes "false") = data_numeric 0
  /\ value (bytes "no") = data_numeric 0
  /\ value (bytes "off") = data_numeric 0
  /\ value (bytes "") = data_numeric 0
  /\ value (bytes "0foo") = data_numeric 0.
Proof.
  intros parse value.
  assert (Hparse : forall word,
    parse word
    = (0%Z,
       mk_option name OPTION_BOOLEAN help
         (data_numeric (bool_int (Spec.bool_word (c_str word)))), st)).
  { intros word. unfold parse, parse_option. cbn [o_type o_name o_help].
    now rewrite bool_test. }
  assert (Hvalue : forall word,
    value word = data_numeric (bool_int (Spec.bool_word (c_str word)))).
  { intros word. unfold value. now rewrite Hparse. }
  split; [exact Hparse|]. split; [|split].
  - intros word. rewrite Hvalue.
    destruct (c_str word) as [|c r]; cbn [Spec.bool_word].
    { split; [discriminate|]. intros [c [r [H _]]]. discriminate. }
    split.
    + intros H. exists c, r. split; [reflexivity|].
      destruct (isdigit c && (code "0" <? code c)%Z) eqn:H1.
      { left. apply andb_true_iff in H1 as [Hd Hlt]. split; [exact Hd | lia]. }
      destruct (Ascii.eqb_spec c "t") as [->|_]; [right; now left|].
      destruct (Ascii.eqb_spec c "y") as [->|_]; [right; right; now left|].
      right. right. right.
      destruct r as [|d r]; [discriminate|].
      destruct (Ascii.eqb_spec c "o") as [->|_]; [|discriminate].
      destruct (Ascii.eqb_spec d "n") as [->|_]; [|discriminate].
      split; [reflexivity|]. now exists r.
    + intros [c' [r' [[= <- <-] H]]].
      destruct H as [[Hd Hlt]|[->|[->|[-> [r'' ->]]]]]; try reflexivity.
      rewrite Hd. assert (Hb : (code "0" <? code c)%Z = true) by lia.
      now rewrite Hb.
  - intros word. rewrite Hvalue.
    destruct (Spec.bool_word (c_str word)); [now left | now right].
  - repeat split; apply Hvalue.
Qed.

(** C8. Parsing a word into a Text option returns 0 and writes no error,
    however long the word: the string stored is the word cut to the first
    [text_size - 1] characters, so a prefix of the word, shorter than the
    buffer and followed in it by a terminator; it is the whole word when that
    fits. *)
Theorem parse_option_text {E} (stab_get : list ascii -> option Z)
    (text_size : nat) (name help : list ascii) (data : option_data)
    (word : list ascii) (st : pstate E)
    (Hsize : 0 < text_size) :
  exists t,
    parse_option stab_get text_size (mk_option name OPTION_TEXT help data) word st
    = (0%Z, mk_option name OPTION_TEXT help (data_text t), st)
    /\ c_str t = take (text_size - 1) (c_str word)
    /\ (exists rest, c_str word = c_str t ++ rest)
    /\ strlen t < text_size
    /\ peek t (strlen t) = NUL
    /\ peek t (text_size - 1) = NUL
    /\ text_size <= length t
    /\ (match data with
        | data_text old => length old = text_size
        | data_numeric _ => True
        end -> length t = text_size)
    /\ (strlen word < text_size -> c_str t = c_str word)
    /\ (text_size <= strlen word -> strlen t = text_size - 1).
Proof.
  unfold parse_option. cbn [o_type o_name o_help o_data].
  set (old := match data with
              | data_text t => t
              | data_numeric _ => replicate text_size NUL
              end).
  set (copy := take text_size (c_str word ++ replicate text_size NUL)).
  assert (Hcopy_len : length copy = text_size).
  { unfold copy. rewrite length_take, length_app, length_replicate. lia. }
  set (k := Nat.min (text_size - 1) (strlen word)).
  assert (Hk : k <= text_size - 1) by (unfold k; lia).
  assert (Hcopy : exists x, copy = take k (c_str word) ++ replicate (text_size - 1 - k) NUL ++ [x]).
  { unfold copy, k, strlen.
    destruct (Nat.le_gt_cases text_size (length (c_str word))) as [Hl|Hl].
    - rewrite take_app_le by lia. rewrite Nat.min_l by lia.
      replace (text_size - 1 - (text_size - 1)) with 0 by lia. cbn [replicate app].
      destruct (drop (text_size - 1) (take text_size (c_str word))) as [|x l] eqn:Ed.
      + exfalso. apply (f_equal length) in Ed.
        rewrite length_drop, length_take in Ed. simpl in Ed. lia.
      + exists x.
        rewrite <- (take_drop (text_size - 1) (take text_size (c_str word))).
        rewrite take_take, Nat.min_l by lia. rewrite Ed. f_equal.
        apply (f_equal length) in Ed. rewrite length_drop, length_take in Ed.
        destruct l; [reflexivity | cbn [length] in Ed; lia].
    - rewrite take_app_ge by lia. rewrite Nat.min_r by lia.
      rewrite (take_ge (c_str word)) by lia. rewrite take_replicate.
      exists NUL. f_equal.
      replace (Nat.min (text_size - length (c_str word)) text_size)
        with (S (text_size - 1 - length (c_str word))) by lia.
      rewrite replicate_S_end. reflexivity. }
  destruct Hcopy as [x Hx].
  set (pre := take k (c_str word) ++ replicate (text_size - 1 - k) NUL).
  assert (Hpre_len : length pre = text_size - 1).
  { unfold pre. rewrite length_app, length_take, length_replicate.
    unfold k, strlen in *. lia. }
  assert (Ht : poke (strncpy old word text_size) (text_size - 1) NUL
               = pre ++ NUL :: drop text_size old).
  { unfold strncpy. fold copy. rewrite Hx.
    replace (take k (c_str word) ++ replicate (text_size - 1 - k) NUL ++ [x])
      with (pre ++ [x]) by (unfold pre; now rewrite <- app_assoc).
    rewrite <- app_assoc. cbn [app]. rewrite <- Hpre_len.
    apply poke_app_length. }
  rewrite Ht.
  assert (Hfree : forallb truthy (take k (c_str word)) = true).
  { apply forallb_take, c_str_nul_free. }
  assert (Hstr : c_str (pre ++ NUL :: drop text_size old) = take k (c_str word)).
  { unfold pre. rewrite <- app_assoc. rewrite c_str_app by assumption.
    rewrite (c_str_stop (replicate (text_size - 1 - k) NUL
                           ++ NUL :: drop text_size old));
      [apply app_nil_r|].
    destruct (text_size - 1 - k); reflexivity. }
  assert (Hkk : take k (c_str word) = take (text_size - 1) (c_str word)).
  { unfold k, strlen.
    destruct (Nat.le_gt_cases (text_size - 1) (length (c_str word))).
    - now rewrite Nat.min_l by lia.
    - rewrite Nat.min_r by lia. rewrite !take_ge by lia. reflexivity. }
  assert (Hlen : strlen (pre ++ NUL :: drop text_size old) = k).
  { unfold strlen at 1. rewrite Hstr, length_take. unfold k, strlen. lia. }
  eexists. split; [reflexivity|].
  split; [now rewrite Hstr|].
  split; [exists (drop k (c_str word)); rewrite Hstr; symmetry; apply take_drop|].
  split; [rewrite Hlen; lia|].
  split.
  { rewrite Hlen. unfold pre. rewrite <- app_assoc.
    pose proof (peek_app_length (take k (c_str word))
                  (replicate (text_size - 1 - k) NUL
                   ++ NUL :: drop text_size old)) as Hp.
    replace (length (take k (c_str word))) with k in Hp
      by (rewrite length_take; unfold k, strlen; lia).
    rewrite Hp. destruct (text_size - 1 - k); reflexivity. }
  split; [rewrite <- Hpre_len; apply peek_app_length|].
  split; [rewrite length_app, Hpre_len; cbn [length]; lia|].
  split.
  { intros Hold. rewrite length_app, Hpre_len. cbn [length].
    rewrite length_drop.
    assert (length old = text_size).
    { unfold old. destruct data; [apply length_replicate | exact Hold]. }
    lia. }
  split.
  { intros Hfit. rewrite Hstr. unfold k. rewrite Nat.min_r by lia.
    apply take_ge. unfold strlen. lia. }
  intros Hlong. rewrite Hlen. unfold k. lia.
Qed.

Lemma parse_option_text_witness :
  exists t,
    parse_option no_stab 4 (mk_option (bytes "name") OPTION_TEXT [] (data_numeric 0))
                 (bytes "abcdefg") (initial_state tt)
    = (0%Z, mk_option (bytes "name") OPTION_TEXT [] (data_text t), initial_state tt)
    /\ c_str t = bytes "abc".
Proof.
  destruct (parse_option_text no_stab 4 (bytes "name") [] (data_numeric 0)
              (bytes "abcdefg") (initial_state tt) ltac:(lia))
    as [t [Hp [Hc _]]].
  exists t. split; [exact Hp | exact Hc].
Defined.

(* ===================================================================== *)
(** ** Tokens, dispatch and lookup                                          *)
(* ===================================================================== *)

(** The token of a text that is not all white space is its first maximal run
    of other characters. *)
Lemma first_token_maximal s :
  forallb isspace s = false ->
  exists ws tail,
    s = ws ++ Spec.first_token s ++ tail
    /\ forallb isspace ws = true
    /\ Spec.first_token s <> []
    /\ forallb Spec.nonspace (Spec.first_token s) = true
    /\ (tail = [] \/ isspace (hd NUL tail) = true)
    /\ Spec.after_token s = Spec.drop_while isspace tail.
Proof.
  intros Hs. unfold Spec.first_token, Spec.after_token.
  exists (Spec.take_while isspace s),
         (Spec.drop_while Spec.nonspace (Spec.drop_while isspace s)).
  split; [now rewrite !take_drop_while|].
  split; [apply take_while_all|].
  split.
  { destruct (drop_while_head isspace s NUL) as [H|H].
    - apply drop_while_nil_iff in H. congruence.
    - destruct (Spec.drop_while isspace s) as [|c r] eqn:Ed.
      + apply drop_while_nil_iff in Ed. congruence.
      + simpl in H |- *. unfold Spec.nonspace at 1. rewrite H. discriminate. }
  split; [apply take_while_all|].
  split; [|reflexivity].
  destruct (drop_while_head Spec.nonspace (Spec.drop_while isspace s) NUL) as [H|H].
  - now left.
  - right. unfold Spec.nonspace in H. now apply negb_false_iff in H.
Qed.

(** C6. [get_arg] skips the white space at the cursor and returns the maximal
    run of other characters that follows as a terminated string, with the
    cursor moved past the white space after it; it returns no token exactly
    when the text at the cursor is empty or all white space, and then leaves
    the cursor as it was.  In a buffer that holds three spaces, foo, three
    spaces and bar it returns foo and leaves the cursor at bar. *)
Theorem get_arg_token (buf : list ascii) (pos : nat) :
  let s := c_str (drop pos buf) in
  let out := get_arg (Some (mk_cursor buf pos)) in
  (fst out = None <-> forallb isspace s = true)
  /\ (fst out = None -> snd out = Some (mk_cursor buf pos))
  /\ (forallb isspace s = false ->
      exists start buf' pos' ws tail,
        out = (Some start, Some (mk_cursor buf' pos'))
        /\ c_str (drop start buf') = Spec.first_token s
        /\ s = ws ++ Spec.first_token s ++ tail
        /\ forallb isspace ws = true
        /\ Spec.first_token s <> []
        /\ forallb Spec.nonspace (Spec.first_token s) = true
        /\ (tail = [] \/ isspace (hd NUL tail) = true)
        /\ c_str (drop pos' buf') = Spec.drop_while isspace tail
        /\ isspace (hd NUL (c_str (drop pos' buf'))) = false
        /\ length buf' = length buf)
  /\ (let out := get_arg (Some (mk_cursor (bytes "   foo   bar") 0)) in
      exists start buf' pos',
        out = (Some start, Some (mk_cursor buf' pos'))
        /\ c_str (drop start buf') = bytes "foo"
        /\ c_str (drop pos' buf') = bytes "bar")
  /\ fst (get_arg (Some (mk_cursor (bytes "") 0))) = None
  /\ fst (get_arg (Some (mk_cursor (bytes "    ") 0))) = None
  /\ get_arg None = (None, None).
Proof.
  intros s out. pose proof (get_arg_text buf pos) as H. cbv zeta in H.
  fold s out in H.
  split; [|split; [|split]].
  - destruct (forallb isspace s).
    + rewrite H. simpl. tauto.
    + destruct H as [start [buf' [pos' [-> _]]]]. simpl.
      split; discriminate.
  - destruct (forallb isspace s).
    + rewrite H. reflexivity.
    + destruct H as [start [buf' [pos' [-> _]]]]. discriminate.
  - intros Hs. rewrite Hs in H.
    destruct H as [start [buf' [pos' [Hout [Htok [Hrest [Hlen _]]]]]]].
    destruct (first_token_maximal s Hs) as [ws [tail [Hsplit [Hws [Hne [Hns [Htail Hafter]]]]]]].
    exists start, buf', pos', ws, tail.
    split; [exact Hout|]. split; [exact Htok|]. split; [exact Hsplit|].
    split; [exact Hws|]. split; [exact Hne|]. split; [exact Hns|].
    split; [exact Htail|]. split; [now rewrite Hrest|].
    split; [|exact Hlen].
    rewrite Hrest, Hafter.
    destruct (drop_while_head isspace tail NUL) as [E|E]; [now rewrite E | exact E].
  - split; [|repeat split].
    cbv zeta. eexists _, _, _. split; [reflexivity|]. split; reflexivity.
Qed.

Lemma count_byte_app c a b : count_byte c (a ++ b) = count_byte c a + count_byte c b.
Proof. induction a as [|x a IH]; simpl; [reflexivity|]. rewrite IH. lia. Qed.

Lemma count_newline_nonspace s :
  forallb Spec.nonspace s = true -> count_byte newline s = 0.
Proof.
  induction s as [|c s IH]; simpl; [reflexivity|].
  intros H. apply andb_true_iff in H as [Hc Hs]. rewrite (IH Hs).
  destruct (Ascii.eqb_spec c newline) as [->|_]; [discriminate | reflexivity].
Qed.

Lemma first_token_nonspace s : forallb Spec.nonspace (Spec.first_token s) = true.
Proof. apply take_while_all. Qed.

(** The diagnostic about a command name is one line. *)
Lemma unknown_command_one_line s :
  count_byte newline (unknown_command_msg (Spec.first_token s)) = 1
  /\ last (unknown_command_msg (Spec.first_token s)) = Some newline.
Proof.
  unfold unknown_command_msg. split.
  - rewrite !count_byte_app, (count_newline_nonspace _ (first_token_nonspace s)).
    reflexivity.
  - rewrite !app_assoc. apply last_snoc.
Qed.

(** C2. [process_command] returns 0 on a line with no token (and leaves the
    state as it was), returns 0 whenever the command named by the first token
    is in the table, whatever its handler returned, and returns -1 exactly
    when there is a token that names no command; it then appends one line,
    the diagnostic about that name, to the error stream and changes nothing
    else in the state. *)
Theorem process_command_status {E} (all_commands : list (command E))
    (arg : list ascii) (interactive : Z) (st : pstate E) :
  let s := c_str arg in
  let name := Spec.first_token s in
  let out := process_command all_commands arg interactive st in
  (forallb isspace s = true -> status out = 0%Z /\ final out = st)
  /\ (forall cmd,
        forallb isspace s = false -> find_command all_commands name = Some cmd ->
        status out = 0%Z
        /\ exists cur,
            c_str (drop (cur_pos cur) (cur_buf cur))
            = Spec.after_token (c_str (trimmed arg))
            /\ final out
               = set_interactive_call (interactive_call st)
                   (final (c_func cmd cur (set_interactive_call interactive st))))
  /\ (forallb isspace s = false -> find_command all_commands name = None ->
      status out = (-1)%Z
      /\ final out = fprintf_stderr (unknown_command_msg name) st
      /\ stderr (final out) = stderr st ++ unknown_command_msg name
      /\ count_byte newline (unknown_command_msg name) = 1
      /\ last (unknown_command_msg name) = Some newline)
  /\ (status out = (-1)%Z <->
      forallb isspace s = false /\ find_command all_commands name = None)
  /\ (status out = 0%Z \/ status out = (-1)%Z)
  /\ status (process_command demo_commands (bytes "HELP topic") 1 (initial_state tt))
     = 0%Z
  /\ status (process_command demo_commands (bytes "   ") 1 (initial_state tt)) = 0%Z
  /\ (let out := process_command demo_commands (bytes " frob x ") 1 (initial_state tt) in
      status out = (-1)%Z
      /\ stderr (final out)
         = bytes "unknown command: frob (try " ++ [dquote] ++ bytes "help"
             ++ [dquote] ++ bytes ")" ++ [newline]).
Proof.
  intros s name out.
  assert (Hex :
    status (process_command demo_commands (bytes "HELP topic") 1 (initial_state tt))
    = 0%Z
    /\ status (process_command demo_commands (bytes "   ") 1 (initial_state tt)) = 0%Z
    /\ (let out := process_command demo_commands (bytes " frob x ") 1 (initial_state tt) in
        status out = (-1)%Z
        /\ stderr (final out)
           = bytes "unknown command: frob (try " ++ [dquote] ++ bytes "help"
               ++ [dquote] ++ bytes ")" ++ [newline])).
  { cbv zeta. repeat split; reflexivity. }
  pose proof (process_command_cases all_commands arg interactive st) as H.
  cbv zeta in H. fold s name out in H.
  destruct (forallb isspace s) eqn:Hs.
  - rewrite H. unfold status, final. cbn [fst snd].
    split; [now split|]. split; [discriminate|]. split; [discriminate|].
    split; [|split; [now left | exact Hex]].
    split; [discriminate | intros [? _]; discriminate].
  - destruct H as [cmd_text [cur [_ [_ [Hrest Hout]]]]].
    destruct (find_command all_commands name) as [cmd|] eqn:Hfind.
    + assert (Hst : status out = 0%Z
                    /\ final out
                       = set_interactive_call (interactive_call st)
                           (final (c_func cmd cur (set_interactive_call interactive st)))).
      { rewrite Hout. unfold status, final.
        destruct (c_func cmd cur (set_interactive_call interactive st)) as [[ret cur'] st'].
        split; reflexivity. }
      destruct Hst as [Hstatus Hfinal].
      split; [discriminate|].
      split.
      { intros cmd' _ [= <-]. split; [exact Hstatus|]. exists cur. now split. }
      split; [discriminate|].
      split; [|split; [now left | exact Hex]].
      rewrite Hstatus. split; [discriminate | intros [_ ?]; discriminate].
    + rewrite Hout. unfold status, final. cbn [fst snd].
      split; [discriminate|]. split; [discriminate|].
      split.
      { intros _ _. split; [reflexivity|]. split; [reflexivity|].
        split; [reflexivity|]. apply unknown_command_one_line. }
      split; [|split; [now right | exact Hex]].
      split; [now split | reflexivity].
Qed.

(** C7. The interactive flag after [process_command] returns is the flag
    before the call, whatever the line, the table and the handler do; the
    handler runs with the flag set to the argument [interactive], and a
    dispatch made from inside a handler gives the flag back to it unchanged. *)
Theorem process_command_restores_flag {E} (all_commands : list (command E))
    (arg : list ascii) (interactive : Z) (st : pstate E) :
  is_interactive (final (process_command all_commands arg interactive st))
  = is_interactive st
  /\ (forall cmd,
        forallb isspace (c_str arg) = false ->
        find_command all_commands (Spec.first_token (c_str arg)) = Some cmd ->
        exists cur st',
          is_interactive st' = interactive
          /\ st' = set_interactive_call interactive st
          /\ final (process_command all_commands arg interactive st)
             = set_interactive_call (is_interactive st) (final (c_func cmd cur st')))
  /\ (forall (inner : list (command E)) line flag,
        is_interactive
          (final (process_command inner line flag
                    (set_interactive_call interactive st)))
        = interactive)
  /\ (let out := process_command outer_commands (bytes "outer") 1
                   (set_interactive_call 7 (initial_state [])) in
      is_interactive (final out) = 7%Z /\ ext (final out) = [1%Z; 0%Z]).
Proof.
  assert (Hflag : forall (tbl : list (command E)) line flag s0,
    is_interactive (final (process_command tbl line flag s0)) = is_interactive s0).
  { intros tbl line flag s0.
    pose proof (process_command_cases tbl line flag s0) as H. cbv zeta in H.
    destruct (forallb isspace (c_str line)).
    - rewrite H. reflexivity.
    - destruct H as [cmd_text [cur [_ [_ [_ ->]]]]].
      destruct (find_command tbl (Spec.first_token (c_str line))) as [cmd|].
      + destruct (c_func cmd cur (set_interactive_call flag s0)) as [[ret cur'] st'].
        reflexivity.
      + reflexivity. }
  split; [apply Hflag|].
  split; [|split; [intros inner line flag; apply Hflag | split; reflexivity]].
  intros cmd Hs Hf.
  pose proof (process_command_cases all_commands arg interactive st) as H.
  cbv zeta in H. rewrite Hs in H.
  destruct H as [cmd_text [cur [_ [_ [_ Hout]]]]]. rewrite Hf in Hout.
  exists cur, (set_interactive_call interactive st).
  split; [reflexivity|]. split; [reflexivity|]. rewrite Hout.
  destruct (c_func cmd cur (set_interactive_call interactive st)) as [[ret cur'] st'].
  reflexivity.
Qed.

Lemma case_variant_length a b :
  Spec.case_variant a b -> length a = length b.
Proof.
  unfold Spec.case_variant, Spec.lower. intros H.
  apply (f_equal length) in H. now rewrite !length_map in H.
Qed.

(** C9. [find_command] and [find_option] give the same answer for two names
    that differ in letter case only.  The entry they return is the first one
    in scan order whose name equals the queried name up to letter case; that
    is equality of the whole names, which have the same length, not a prefix
    match.  So HELP and help find the same command, and hel finds none. *)
Theorem lookup_case_insensitive {E} (all_commands : list (command E))
    (st : pstate E) (name : list ascii) :
  (forall name',
      Spec.case_variant (c_str name) (c_str name') ->
      find_command all_commands name = find_command all_commands name'
      /\ find_option name st = find_option name' st)
  /\ (forall c,
        find_command all_commands name = Some c <->
        exists i, all_commands !! i = Some c
                  /\ Spec.case_variant (c_str name) (c_str (c_name c))
                  /\ forall j c', j < i -> all_commands !! j = Some c' ->
                                  ~ Spec.case_variant (c_str name) (c_str (c_name c')))
  /\ (forall o,
        find_option name st = Some o <->
        exists i, option_list st !! i = Some o
                  /\ Spec.case_variant (c_str name) (c_str (o_name o))
                  /\ forall j o', j < i -> option_list st !! j = Some o' ->
                                  ~ Spec.case_variant (c_str name) (c_str (o_name o')))
  /\ (forall c, find_command all_commands name = Some c ->
                strlen name = strlen (c_name c))
  /\ (forall o, find_option name st = Some o -> strlen name = strlen (o_name o))
  /\ find_command demo_commands (bytes "HELP") = find_command demo_commands (bytes "help")
  /\ (exists c, find_command demo_commands (bytes "HELP") = Some c
                /\ c_name c = bytes "help")
  /\ find_command demo_commands (bytes "hel") = None
  /\ find_command demo_commands (bytes "helpx") = None
  /\ find_option (bytes "Color") (set_option_list demo_options (initial_state tt))
     = Some (mk_option (bytes "COLOR") OPTION_BOOLEAN [] (data_numeric 1)).
Proof.
  split; [|split; [|split; [|split; [|split]]]].
  - intros name' Hv. split.
    + now apply find_command_in_case.
    + now apply find_option_in_case.
  - intros c. apply find_command_in_first.
  - intros o. apply find_option_in_first.
  - intros c Hc. apply find_command_in_first in Hc as [i [_ [Hm _]]].
    now apply case_variant_length.
  - intros o Ho. apply find_option_in_first in Ho as [i [_ [Hm _]]].
    now apply case_variant_length.
  - split; [reflexivity|]. split; [|repeat split].
    eexists. split; reflexivity.
Qed.

Lemma lookup_case_insensitive_witness :
  Spec.case_variant (c_str (bytes "HeLp")) (c_str (bytes "help"))
  /\ find_command demo_commands (bytes "HeLp") = find_command demo_commands (bytes "help").
Proof.
  split; [reflexivity|].
  apply (proj1 (lookup_case_insensitive demo_commands (initial_state tt) (bytes "HeLp"))
               (bytes "help") eq_refl).
Defined.
